(** * Fair resource sharing: Shapley-value and proportional allocation

    A shallow embedding of [os_da.py] (classes [VM] and [CloudResourceGame])
    over exact rational arithmetic.  Python numbers are modelled as [Q];
    the operations that can raise in Python (true division, [math.factorial],
    list indexing) return in a small error monad.

    Exact arithmetic is an idealisation: the weight of
    [calculate_shapley_values] is a true division of integers, so the real
    loops always run on IEEE 754 doubles.  Module [F64] below repeats the
    engine, line for line, on binary64 floats; it is used to evaluate the
    code where rounding makes it differ from the exact model. *)

From Stdlib Require Import List Arith ZArith QArith Qminmax Lia Lqa Permutation.
From Stdlib Require Import Setoid Morphisms.
From Stdlib Require Uint63.
From Corelib Require Import PrimFloat.
Import ListNotations.

Open Scope Q_scope.

(** ** Errors and the error monad *)

Inductive error : Type :=
| ZeroDivisionError
| ValueError
| IndexError.

Inductive result (A : Type) : Type :=
| Ok (a : A)
| Err (e : error).

Arguments Ok {A} a.
Arguments Err {A} e.

Definition bind {A B : Type} (m : result A) (k : A -> result B) : result B :=
  match m with
  | Ok a => k a
  | Err e => Err e
  end.

Notation "x <- m ;; k" := (bind m (fun x => k))
  (at level 61, m at next level, right associativity).

(** A [for] loop whose body may raise: the state is threaded through. *)
Fixpoint foldM {S A : Type} (f : S -> A -> result S) (l : list A) (s : S)
  : result S :=
  match l with
  | [] => Ok s
  | x :: l' => s' <- f s x ;; foldM f l' s'
  end.

(** A list comprehension whose element expression may raise. *)
Fixpoint mapM {A B : Type} (f : A -> result B) (l : list A) : result (list B) :=
  match l with
  | [] => Ok []
  | x :: l' => y <- f x ;; ys <- mapM f l' ;; Ok (y :: ys)
  end.

(** ** Python primitives *)

(** [sum(xs)]: left-to-right accumulation starting from 0. *)
Definition py_sum (l : list Q) : Q := fold_left Qplus l 0.

(** [min(a, b)]: [b] when [b < a], otherwise [a]. *)
Definition py_min (a b : Q) : Q := Qmin a b.

(** [a / b]: raises [ZeroDivisionError] when [b] is zero. *)
Definition py_truediv (a b : Q) : result Q :=
  if Qeq_bool b 0 then Err ZeroDivisionError else Ok (a / b).

(** [math.factorial(z)]: raises [ValueError] on a negative argument. *)
Definition factorial (z : Z) : result Z :=
  if (z <? 0)%Z then Err ValueError else Ok (Z.of_nat (fact (Z.to_nat z))).

(** [l[i]] for [i] from a [range]: raises [IndexError] past the end. *)
Definition getitem {A : Type} (l : list A) (i : nat) : result A :=
  match nth_error l i with
  | Some x => Ok x
  | None => Err IndexError
  end.

(** [l[i] += x]. *)
Fixpoint iadd_at (l : list Q) (i : nat) (x : Q) : result (list Q) :=
  match l, i with
  | [], _ => Err IndexError
  | y :: l', O => Ok ((y + x) :: l')
  | y :: l', S i' => l'' <- iadd_at l' i' x ;; Ok (y :: l'')
  end.

(** [itertools.combinations(l, k)]: the [k]-element subsequences of [l],
    in lexicographic order of positions. *)
Fixpoint combinations {A : Type} (l : list A) (k : nat) : list (list A) :=
  match k with
  | O => [[]]
  | S k' =>
      match l with
      | [] => []
      | x :: l' => map (cons x) (combinations l' k') ++ combinations l' k
      end
  end.

(** ** The data model *)

Record VM : Type := mkVM { id : Z; demand : Q }.

Record CloudResourceGame : Type := mkGame {
  vms : list VM;
  total_resources : Q;
  n : nat
}.

(** [CloudResourceGame.__init__]: three assignments, no validation. *)
Definition init (vms0 : list VM) (total_resources0 : Q)
  : result CloudResourceGame :=
  Ok {| vms := vms0; total_resources := total_resources0; n := length vms0 |}.

(** The engine that [__init__] builds. *)
Definition game (vms0 : list VM) (total_resources0 : Q) : CloudResourceGame :=
  {| vms := vms0; total_resources := total_resources0; n := length vms0 |}.

(** ** The allocation engine *)

Definition characteristic_function (self : CloudResourceGame)
  (coalition : list VM) : Q :=
  let total_demand := py_sum (map demand coalition) in
  py_min total_demand (total_resources self).

(** The weight expression of [calculate_shapley_values], for a
    sub-coalition of length [len_sub]. *)
Definition weight (self : CloudResourceGame) (len_sub : nat) : result Q :=
  a <- factorial (Z.of_nat len_sub) ;;
  b <- factorial (Z.of_nat (n self) - Z.of_nat len_sub - 1) ;;
  c <- factorial (Z.of_nat (n self)) ;;
  py_truediv (inject_Z (a * b)) (inject_Z c).

(** Body of the innermost loop, [for vm_idx in coalition_indices]. *)
Definition member_step (self : CloudResourceGame)
  (coalition_indices : list nat) (value : Q)
  (shapley_values : list Q) (vm_idx : nat) : result (list Q) :=
  sub_coalition <-
    mapM (getitem (vms self))
         (filter (fun i => negb (i =? vm_idx)%nat) coalition_indices) ;;
  let value_without := characteristic_function self sub_coalition in
  let marginal_contribution := value - value_without in
  w <- weight self (length sub_coalition) ;;
  iadd_at shapley_values vm_idx (marginal_contribution * w).

(** Body of the middle loop, [for coalition_indices in combinations(...)]. *)
Definition coalition_step (self : CloudResourceGame)
  (shapley_values : list Q) (coalition_indices : list nat)
  : result (list Q) :=
  coalition <- mapM (getitem (vms self)) coalition_indices ;;
  let value := characteristic_function self coalition in
  foldM (member_step self coalition_indices value)
        coalition_indices shapley_values.

(** Body of the outer loop, [for coalition_size in range(1, n + 1)]. *)
Definition size_step (self : CloudResourceGame)
  (shapley_values : list Q) (coalition_size : nat) : result (list Q) :=
  foldM (coalition_step self)
        (combinations (seq 0 (n self)) coalition_size) shapley_values.

Definition calculate_shapley_values (self : CloudResourceGame)
  : result (list Q) :=
  foldM (size_step self) (seq 1 (n self)) (repeat 0 (n self)).

Definition calculate_proportional_allocation (self : CloudResourceGame)
  : result (list Q) :=
  let total_demand := py_sum (map demand (vms self)) in
  if Qle_bool total_demand (total_resources self) then
    Ok (map demand (vms self))
  else
    mapM (fun vm =>
            r <- py_truediv (demand vm) total_demand ;;
            Ok (total_resources self * r))
         (vms self).

(** Body of the loop of [allocate_resources], [for i in range(self.n)]. *)
Definition allocate_step (self : CloudResourceGame)
  (shapley_values : list Q) (total_shapley : Q)
  (allocations : list Q) (i : nat) : result (list Q) :=
  s <- getitem shapley_values i ;;
  r <- py_truediv s total_shapley ;;
  let alloc := total_resources self * r in
  vm <- getitem (vms self) i ;;
  Ok (allocations ++ [py_min alloc (demand vm)]).

Definition allocate_resources (self : CloudResourceGame) : result (list Q) :=
  shapley_values <- calculate_shapley_values self ;;
  let total_shapley := py_sum shapley_values in
  if Qle_bool total_shapley 0 then
    Ok (repeat 0 (n self))
  else
    foldM (allocate_step self shapley_values total_shapley)
          (seq 0 (n self)) [].

(** The reference scenario of [main]. *)
Definition main_vms : list VM := [mkVM 1 10; mkVM 2 20; mkVM 3 30].
Definition main_game : CloudResourceGame := game main_vms 45.

Definition idle_vms : list VM := [mkVM 1 0; mkVM 2 20].

(** ** Finite sums over lists *)

Fixpoint big {A : Type} (l : list A) (f : A -> Q) : Q :=
  match l with
  | [] => 0
  | x :: l' => f x + big l' f
  end.

(** A linear observation of a value vector: [ob c l] is the sum of
    [c i * l[i]].  With [c] constantly 1 it is the sum of the vector, with
    [c] the indicator of [j] it is the entry at [j]. *)
Fixpoint ob (c : nat -> Q) (l : list Q) : Q :=
  match l with
  | [] => 0
  | y :: l' => c O * y + ob (fun i => c (S i)) l'
  end.

Definition ones : nat -> Q := fun _ => 1.
Definition at_index (j : nat) : nat -> Q :=
  fun i => if (i =? j)%nat then 1 else 0.

(** ** Closed forms used to reason about the loops *)

(** Default record for total list access; never reached for valid indices. *)
Definition no_vm : VM := mkVM 0 0.

(** [[self.vms[i] for i in C]] when every index of [C] is valid. *)
Definition members (self : CloudResourceGame) (C : list nat) : list VM :=
  map (fun i => nth i (vms self) no_vm) C.

(** Demand of the consumer at index [i]. *)
Definition dem (self : CloudResourceGame) (i : nat) : Q :=
  demand (nth i (vms self) no_vm).

(** Value of the coalition given by the index list [C]. *)
Definition value (self : CloudResourceGame) (C : list nat) : Q :=
  characteristic_function self (members self C).

(** [[i for i in C if i != idx]]. *)
Definition without (idx : nat) (C : list nat) : list nat :=
  filter (fun i => negb (i =? idx)%nat) C.

(** The weight [s! (m - s - 1)! / m!] as a rational. *)
Definition wq (m s : nat) : Q :=
  inject_Z (Z.of_nat (fact s) * Z.of_nat (fact (m - s - 1)))
  / inject_Z (Z.of_nat (fact m)).

(** The factorial of [m] as a rational. *)
Definition qfact (m : nat) : Q := inject_Z (Z.of_nat (fact m)).

(** The coefficient [k! (m - k)! / m!], the inverse of a binomial. *)
Definition uq (m k : nat) : Q := qfact k * qfact (m - k) / qfact m.

(** What one pass of the innermost loop body adds at index [idx]. *)
Definition term (self : CloudResourceGame) (C : list nat) (idx : nat) : Q :=
  (value self C - value self (without idx C))
  * wq (n self) (length (without idx C)).

(** The observation [ob c] of the vector that the three nested loops build. *)
Definition shapley_form (self : CloudResourceGame) (c : nat -> Q) : Q :=
  big (seq 1 (n self)) (fun k =>
    big (combinations (seq 0 (n self)) k) (fun C =>
      big C (fun idx => c idx * term self C idx))).

(** Total weight of the coalitions that contain index [i]. *)
Definition cnt (m i : nat) : Q :=
  big (seq 1 m) (fun k =>
    big (combinations (seq 0 m) k) (fun C =>
      big C (fun idx => at_index i idx * wq m (length (without idx C))))).


(** The registry in which consumer [i] demands 1 and all others 0. *)
Definition unit_vms (m i : nat) : list VM :=
  map (fun j => mkVM 0 (if (j =? i)%nat then 1 else 0)) (seq 0 m).


(** ** The satisfaction report *)

(** [[min(a/d, 1) for a, d in zip(alloc, demands)]], the comprehension of
    [visualize_results]; the plotting calls around it are not modelled. *)
Definition satisfaction_ratios (alloc demands : list Q) : result (list Q) :=
  mapM (fun ad => r <- py_truediv (fst ad) (snd ad) ;; Ok (py_min r 1))
       (combine alloc demands).

(** [sum(min(a/vm.demand, 1) for a, vm in zip(alloc, vms)) / len(vms)],
    the metric expression of [main], as a function of the allocation and
    the registry it reads. *)
Definition average_satisfaction (alloc : list Q) (vms0 : list VM)
  : result Q :=
  rs <- mapM (fun avm =>
                r <- py_truediv (fst avm) (demand (snd avm)) ;;
                Ok (py_min r 1))
             (combine alloc vms0) ;;
  py_truediv (py_sum rs) (inject_Z (Z.of_nat (length vms0))).

(** ** The same engine on IEEE 754 doubles

    Every number is a binary64 float; [+], [-], [*] and [/] round to nearest
    even as CPython's float operations do.  A Python int that is exactly a
    double (every demand and pool of the scenarios below) behaves like that
    double in each operation used here.  [sum] is the plain left-to-right
    accumulation of CPython up to 3.11.  The integer factorials are converted
    exactly as long as [n <= 18]. *)
Module F64.

Definition of_int (z : Z) : float := PrimFloat.of_uint63 (Uint63.of_Z z).

Definition py_sum (l : list float) : float :=
  fold_left PrimFloat.add l 0%float.

Definition py_min (a b : float) : float :=
  if PrimFloat.ltb b a then b else a.

Definition py_truediv (a b : float) : result float :=
  if PrimFloat.eqb b 0%float then Err ZeroDivisionError
  else Ok (PrimFloat.div a b).

Fixpoint iadd_at (l : list float) (i : nat) (x : float)
  : result (list float) :=
  match l, i with
  | [], _ => Err IndexError
  | y :: l', O => Ok (PrimFloat.add y x :: l')
  | y :: l', S i' => l'' <- iadd_at l' i' x ;; Ok (y :: l'')
  end.

Record VM : Type := mkVM { id : Z; demand : float }.

Record CloudResourceGame : Type := mkGame {
  vms : list VM;
  total_resources : float;
  n : nat
}.

Definition game (vms0 : list VM) (total_resources0 : float)
  : CloudResourceGame :=
  {| vms := vms0; total_resources := total_resources0; n := length vms0 |}.

Definition characteristic_function (self : CloudResourceGame)
  (coalition : list VM) : float :=
  let total_demand := py_sum (map demand coalition) in
  py_min total_demand (total_resources self).

Definition weight (self : CloudResourceGame) (len_sub : nat)
  : result float :=
  a <- factorial (Z.of_nat len_sub) ;;
  b <- factorial (Z.of_nat (n self) - Z.of_nat len_sub - 1) ;;
  c <- factorial (Z.of_nat (n self)) ;;
  py_truediv (of_int (a * b)) (of_int c).

Definition member_step (self : CloudResourceGame)
  (coalition_indices : list nat) (value : float)
  (shapley_values : list float) (vm_idx : nat) : result (list float) :=
  sub_coalition <-
    mapM (getitem (vms self))
         (filter (fun i => negb (i =? vm_idx)%nat) coalition_indices) ;;
  let value_without := characteristic_function self sub_coalition in
  let marginal_contribution := PrimFloat.sub value value_without in
  w <- weight self (length sub_coalition) ;;
  iadd_at shapley_values vm_idx (PrimFloat.mul marginal_contribution w).

Definition coalition_step (self : CloudResourceGame)
  (shapley_values : list float) (coalition_indices : list nat)
  : result (list float) :=
  coalition <- mapM (getitem (vms self)) coalition_indices ;;
  let value := characteristic_function self coalition in
  foldM (member_step self coalition_indices value)
        coalition_indices shapley_values.

Definition size_step (self : CloudResourceGame)
  (shapley_values : list float) (coalition_size : nat)
  : result (list float) :=
  foldM (coalition_step self)
        (combinations (seq 0 (n self)) coalition_size) shapley_values.

Definition calculate_shapley_values (self : CloudResourceGame)
  : result (list float) :=
  foldM (size_step self) (seq 1 (n self)) (repeat 0%float (n self)).

Definition calculate_proportional_allocation (self : CloudResourceGame)
  : result (list float) :=
  let total_demand := py_sum (map demand (vms self)) in
  if PrimFloat.leb total_demand (total_resources self) then
    Ok (map demand (vms self))
  else
    mapM (fun vm =>
            r <- py_truediv (demand vm) total_demand ;;
            Ok (PrimFloat.mul (total_resources self) r))
         (vms self).

Definition allocate_step (self : CloudResourceGame)
  (shapley_values : list float) (total_shapley : float)
  (allocations : list float) (i : nat) : result (list float) :=
  s <- getitem shapley_values i ;;
  r <- py_truediv s total_shapley ;;
  let alloc := PrimFloat.mul (total_resources self) r in
  vm <- getitem (vms self) i ;;
  Ok (allocations ++ [py_min alloc (demand vm)]).

Definition allocate_resources (self : CloudResourceGame)
  : result (list float) :=
  shapley_values <- calculate_shapley_values self ;;
  let total_shapley := py_sum shapley_values in
  if PrimFloat.leb total_shapley 0%float then
    Ok (repeat 0%float (n self))
  else
    foldM (allocate_step self shapley_values total_shapley)
          (seq 0 (n self)) [].


End F64.

(** ** Lemmas on finite sums *)

Lemma big_app {A} (l1 l2 : list A) f :
  big (l1 ++ l2) f == big l1 f + big l2 f.
Proof.
  induction l1 as [|x l1 IH]; simpl; [ring | rewrite IH; ring].
Qed.

Lemma big_map {A B} (g : A -> B) (l : list A) f :
  big (map g l) f = big l (fun x => f (g x)).
Proof.
  induction l as [|x l IH]; simpl; [reflexivity | now rewrite IH].
Qed.

Lemma big_ext {A} (l : list A) f g :
  (forall x, In x l -> f x == g x) -> big l f == big l g.
Proof.
  induction l as [|x l IH]; simpl; intros H; [reflexivity|].
  rewrite (H x) by now left. rewrite IH; [reflexivity|].
  intros y Hy. apply H. now right.
Qed.

Lemma big_plus {A} (l : list A) f g :
  big l (fun x => f x + g x) == big l f + big l g.
Proof.
  induction l as [|x l IH]; simpl; [ring | rewrite IH; ring].
Qed.

Lemma big_minus {A} (l : list A) f g :
  big l (fun x => f x - g x) == big l f - big l g.
Proof.
  induction l as [|x l IH]; simpl; [ring | rewrite IH; ring].
Qed.

Lemma big_scale_l {A} (l : list A) a f :
  big l (fun x => a * f x) == a * big l f.
Proof.
  induction l as [|x l IH]; simpl; [ring | rewrite IH; ring].
Qed.

Lemma big_scale_r {A} (l : list A) a f :
  big l (fun x => f x * a) == big l f * a.
Proof.
  induction l as [|x l IH]; simpl; [ring | rewrite IH; ring].
Qed.

Lemma big_zero {A} (l : list A) f :
  (forall x, In x l -> f x == 0) -> big l f == 0.
Proof.
  induction l as [|x l IH]; simpl; intros H; [reflexivity|].
  rewrite (H x) by now left. rewrite IH; [ring|].
  intros y Hy. apply H. now right.
Qed.

Lemma big_nonneg {A} (l : list A) f :
  (forall x, In x l -> 0 <= f x) -> 0 <= big l f.
Proof.
  induction l as [|x l IH]; cbn [big]; intros H; [lra|].
  assert (0 <= f x) by (apply H; now left).
  assert (0 <= big l f) by (apply IH; intros y Hy; apply H; now right).
  lra.
Qed.

Lemma big_le {A} (l : list A) f g :
  (forall x, In x l -> f x <= g x) -> big l f <= big l g.
Proof.
  induction l as [|x l IH]; cbn [big]; intros H; [lra|].
  assert (f x <= g x) by (apply H; now left).
  assert (big l f <= big l g) by (apply IH; intros y Hy; apply H; now right).
  lra.
Qed.

Lemma fold_left_Qplus (l : list Q) (a : Q) :
  fold_left Qplus l a == a + big l (fun x => x).
Proof.
  revert a. induction l as [|x l IH]; intros a; simpl; [ring|].
  rewrite IH. ring.
Qed.

Lemma py_sum_big (l : list Q) : py_sum l == big l (fun x => x).
Proof. unfold py_sum. rewrite fold_left_Qplus. ring. Qed.

Lemma py_sum_map {A} (f : A -> Q) (l : list A) :
  py_sum (map f l) == big l f.
Proof. rewrite py_sum_big, big_map. reflexivity. Qed.

Lemma ob_ones l : ob ones l == py_sum l.
Proof.
  rewrite py_sum_big. induction l as [|y l IH]; simpl; [reflexivity|].
  unfold ones in *. rewrite IH. ring.
Qed.

Lemma ob_zero_coeff c l :
  (forall i, (i < length l)%nat -> c i == 0) -> ob c l == 0.
Proof.
  revert c. induction l as [|y l IH]; intros c H; simpl; [reflexivity|].
  rewrite (H O) by (simpl; lia).
  rewrite IH; [ring|]. intros i Hi. apply H. simpl; lia.
Qed.

Lemma ob_at_index j l : ob (at_index j) l == nth j l 0.
Proof.
  revert j. induction l as [|y l IH]; intros j; simpl.
  - destruct j; reflexivity.
  - destruct j as [|j]; unfold at_index; simpl.
    + rewrite ob_zero_coeff; [ring | reflexivity].
    + fold (at_index j). rewrite IH. ring.
Qed.

Lemma ob_repeat0 c m : ob c (repeat 0 m) == 0.
Proof.
  revert c. induction m as [|m IH]; intros c; simpl; [reflexivity|].
  rewrite IH. ring.
Qed.

(** ** The loops compute the closed form *)

Lemma getitem_nth {A} (l : list A) i d :
  (i < length l)%nat -> getitem l i = Ok (nth i l d).
Proof.
  intros H. unfold getitem.
  rewrite (nth_error_nth' l d H). reflexivity.
Qed.

Lemma mapM_getitem {A} (l : list A) d (C : list nat) :
  (forall i, In i C -> (i < length l)%nat) ->
  mapM (getitem l) C = Ok (map (fun i => nth i l d) C).
Proof.
  induction C as [|i C IH]; intros H; simpl; [reflexivity|].
  rewrite (getitem_nth l i d) by (apply H; now left). simpl.
  rewrite IH by (intros j Hj; apply H; now right). reflexivity.
Qed.

Lemma fact_pos_Z m : (0 < Z.of_nat (fact m))%Z.
Proof. pose proof (lt_O_fact m). lia. Qed.

Lemma weight_ok self s :
  (s < n self)%nat -> weight self s = Ok (wq (n self) s).
Proof.
  intros H. unfold weight, factorial.
  destruct (Z.ltb_spec (Z.of_nat s) 0); [lia|]. simpl bind.
  destruct (Z.ltb_spec (Z.of_nat (n self) - Z.of_nat s - 1) 0); [lia|].
  simpl bind.
  destruct (Z.ltb_spec (Z.of_nat (n self)) 0); [lia|]. simpl bind.
  rewrite !Nat2Z.id.
  replace (Z.to_nat (Z.of_nat (n self) - Z.of_nat s - 1))
    with (n self - s - 1)%nat by lia.
  unfold py_truediv.
  destruct (Qeq_bool (inject_Z (Z.of_nat (fact (n self)))) 0) eqn:E.
  - apply Qeq_bool_eq in E. pose proof (fact_pos_Z (n self)) as P.
    unfold Qeq in E. simpl in E. lia.
  - reflexivity.
Qed.

Lemma iadd_at_ok l i x :
  (i < length l)%nat ->
  exists l', iadd_at l i x = Ok l' /\ length l' = length l /\
             forall c, ob c l' == ob c l + c i * x.
Proof.
  revert i. induction l as [|y l IH]; intros i H; [simpl in H; lia|].
  destruct i as [|i].
  - eexists. split; [reflexivity|]. split; [reflexivity|].
    intros c. simpl. ring.
  - destruct (IH i) as (l' & E & L & O); [simpl in H; lia|].
    exists (y :: l'). simpl. rewrite E. simpl.
    split; [reflexivity|]. split; [now rewrite L|].
    intros c. rewrite (O (fun i => c (S i))). ring.
Qed.

(** A loop whose body keeps the length of the vector and adds [t x c] to
    every observation adds the sum of the [t x c]. *)
Lemma foldM_big {A} (f : list Q -> A -> result (list Q))
  (t : A -> (nat -> Q) -> Q) (N : nat) (l : list A) :
  (forall x sv, In x l -> length sv = N ->
     exists sv', f sv x = Ok sv' /\ length sv' = N /\
                 forall c, ob c sv' == ob c sv + t x c) ->
  forall sv, length sv = N ->
    exists sv', foldM f l sv = Ok sv' /\ length sv' = N /\
                forall c, ob c sv' == ob c sv + big l (fun x => t x c).
Proof.
  induction l as [|x l IH]; intros H sv L.
  - exists sv. split; [reflexivity|]. split; [assumption|].
    intros c. simpl. ring.
  - destruct (H x sv) as (sv1 & E1 & L1 & O1); [now left | assumption |].
    destruct (IH (fun y s Hy => H y s (or_intror Hy)) sv1 L1)
      as (sv2 & E2 & L2 & O2).
    exists sv2. simpl. rewrite E1. simpl.
    split; [assumption|]. split; [assumption|].
    intros c. rewrite O2, O1. ring.
Qed.

Lemma without_length_lt idx C :
  In idx C -> (length (without idx C) < length C)%nat.
Proof.
  induction C as [|x C IH]; intros H; [contradiction|].
  unfold without in *. simpl.
  destruct (Nat.eqb_spec x idx) as [->|Hne]; simpl.
  - pose proof (filter_length_le (fun i => negb (i =? idx)%nat) C). lia.
  - destruct H as [H|H]; [congruence|]. specialize (IH H). lia.
Qed.

Lemma without_incl idx C i : In i (without idx C) -> In i C.
Proof. unfold without. rewrite filter_In. tauto. Qed.

Lemma member_step_ok self C sv idx :
  length (vms self) = n self ->
  (forall i, In i C -> (i < n self)%nat) ->
  (length C <= n self)%nat ->
  In idx C -> length sv = n self ->
  exists sv', member_step self C (value self C) sv idx = Ok sv' /\
              length sv' = n self /\
              forall c, ob c sv' == ob c sv + c idx * term self C idx.
Proof.
  intros Hn HC Hlen Hidx Hsv. unfold member_step.
  fold (without idx C).
  rewrite (mapM_getitem (vms self) no_vm (without idx C)).
  2:{ intros i Hi. rewrite Hn. apply HC. eapply without_incl; eauto. }
  simpl bind. rewrite length_map.
  rewrite weight_ok.
  2:{ pose proof (without_length_lt idx C Hidx). lia. }
  simpl bind.
  destruct (iadd_at_ok sv idx
              ((value self C
                - characteristic_function self
                    (map (fun i => nth i (vms self) no_vm) (without idx C)))
               * wq (n self) (length (without idx C))))
    as (sv' & E & L & O).
  { rewrite Hsv. now apply HC. }
  exists sv'. split; [exact E|]. split; [now rewrite L|].
  intros c. rewrite O. reflexivity.
Qed.

Lemma coalition_step_ok self C sv :
  length (vms self) = n self ->
  (forall i, In i C -> (i < n self)%nat) ->
  (length C <= n self)%nat ->
  length sv = n self ->
  exists sv', coalition_step self sv C = Ok sv' /\
              length sv' = n self /\
              forall c, ob c sv' ==
                        ob c sv + big C (fun idx => c idx * term self C idx).
Proof.
  intros Hn HC Hlen Hsv. unfold coalition_step.
  rewrite (mapM_getitem (vms self) no_vm C).
  2:{ intros i Hi. rewrite Hn. now apply HC. }
  simpl bind. fold (members self C). fold (value self C).
  apply (foldM_big (member_step self C (value self C))
           (fun idx c => c idx * term self C idx) (n self) C); [|assumption].
  intros idx sv0 Hidx Hsv0. now apply member_step_ok.
Qed.

(** ** Facts on [combinations] *)

Lemma combinations_length {A} (l : list A) k C :
  In C (combinations l k) -> length C = k.
Proof.
  revert k C. induction l as [|x l IH]; intros [|k] C H; simpl in H.
  - destruct H as [<-|[]]. reflexivity.
  - contradiction.
  - destruct H as [<-|[]]. reflexivity.
  - apply in_app_or in H. destruct H as [H|H].
    + apply in_map_iff in H. destruct H as (C' & <- & H).
      simpl. f_equal. now apply IH.
    + now apply IH.
Qed.

Lemma combinations_incl {A} (l : list A) k C x :
  In C (combinations l k) -> In x C -> In x l.
Proof.
  revert k C. induction l as [|y l IH]; intros [|k] C H Hx; simpl in H.
  - destruct H as [<-|[]]. contradiction.
  - contradiction.
  - destruct H as [<-|[]]. contradiction.
  - apply in_app_or in H. destruct H as [H|H].
    + apply in_map_iff in H. destruct H as (C' & <- & H).
      destruct Hx as [<-|Hx]; [now left | right; eauto].
    + right; eauto.
Qed.

Lemma combinations_NoDup {A} (l : list A) k C :
  NoDup l -> In C (combinations l k) -> NoDup C.
Proof.
  revert k C. induction l as [|y l IH]; intros [|k] C Hl H; simpl in H.
  - destruct H as [<-|[]]. constructor.
  - contradiction.
  - destruct H as [<-|[]]. constructor.
  - inversion Hl as [|? ? Hy Hl']; subst.
    apply in_app_or in H. destruct H as [H|H].
    + apply in_map_iff in H. destruct H as (C' & <- & H).
      constructor; [|eauto].
      intros Hin. apply Hy. eapply combinations_incl; eauto.
    + eauto.
Qed.

Lemma combinations_too_long {A} (l : list A) k :
  (length l < k)%nat -> combinations l k = [].
Proof.
  revert k. induction l as [|x l IH]; intros [|k] H; simpl in *;
    try lia; try reflexivity.
  rewrite (IH k), (IH (S k)) by lia. reflexivity.
Qed.

Lemma combinations_all {A} (l : list A) :
  combinations l (length l) = [l].
Proof.
  induction l as [|x l IH]; simpl; [reflexivity|].
  rewrite IH, combinations_too_long by lia. reflexivity.
Qed.


Lemma size_step_ok self k sv :
  length (vms self) = n self ->
  length sv = n self ->
  exists sv', size_step self sv k = Ok sv' /\
              length sv' = n self /\
              forall c, ob c sv' ==
                ob c sv
                + big (combinations (seq 0 (n self)) k) (fun C =>
                    big C (fun idx => c idx * term self C idx)).
Proof.
  intros Hn Hsv. unfold size_step.
  apply (foldM_big (coalition_step self)
           (fun C c => big C (fun idx => c idx * term self C idx))
           (n self)); [|assumption].
  intros C sv0 HC Hsv0.
  assert (Hin : forall i, In i C -> (i < n self)%nat).
  { intros i Hi. pose proof (combinations_incl _ _ _ _ HC Hi) as Hs.
    apply in_seq in Hs. lia. }
  apply coalition_step_ok; try assumption.
  assert (ND : NoDup C)
    by (eapply combinations_NoDup; [apply seq_NoDup | exact HC]).
  pose proof (NoDup_incl_length ND
                (fun i Hi => combinations_incl _ _ _ _ HC Hi)) as Hle.
  now rewrite length_seq in Hle.
Qed.

(** The three nested loops never raise, return a vector of length [n], and
    every observation of it is given by the closed form. *)
Lemma calculate_shapley_values_ok self :
  length (vms self) = n self ->
  exists sv, calculate_shapley_values self = Ok sv /\
             length sv = n self /\
             forall c, ob c sv == shapley_form self c.
Proof.
  intros Hn. unfold calculate_shapley_values.
  destruct (foldM_big (size_step self)
              (fun k c => big (combinations (seq 0 (n self)) k) (fun C =>
                 big C (fun idx => c idx * term self C idx)))
              (n self) (seq 1 (n self))) with (sv := repeat 0 (n self))
    as (sv & E & L & O).
  - intros k sv _ Hsv. now apply size_step_ok.
  - apply repeat_length.
  - exists sv. split; [exact E|]. split; [exact L|].
    intros c. rewrite O, ob_repeat0. unfold shapley_form. ring.
Qed.

(** ** Efficiency: the marginal contributions telescope *)

Lemma without_notin idx C : ~ In idx C -> without idx C = C.
Proof.
  induction C as [|x C IH]; intros H; [reflexivity|].
  unfold without in *. simpl.
  destruct (Nat.eqb_spec x idx) as [->|Hne]; simpl.
  - exfalso. apply H. now left.
  - f_equal. apply IH. intros Hin. apply H. now right.
Qed.

Lemma without_head x C : ~ In x C -> without x (x :: C) = C.
Proof.
  intros H. unfold without. simpl. rewrite Nat.eqb_refl. simpl.
  now apply without_notin.
Qed.

Lemma without_cons_ne x idx C :
  x <> idx -> without idx (x :: C) = x :: without idx C.
Proof.
  intros H. unfold without. simpl.
  destruct (Nat.eqb_spec x idx); [contradiction | reflexivity].
Qed.

Lemma without_length_NoDup idx C :
  NoDup C -> In idx C -> S (length (without idx C)) = length C.
Proof.
  induction 1 as [|x C Hx ND IH]; intros H; [contradiction|].
  destruct (Nat.eq_dec x idx) as [->|Hne].
  - now rewrite without_head.
  - destruct H as [H|H]; [contradiction|].
    rewrite without_cons_ne by assumption. simpl. now rewrite IH.
Qed.

Lemma inject_nat_S m :
  inject_Z (Z.of_nat (S m)) == inject_Z (Z.of_nat m) + 1.
Proof. rewrite Nat2Z.inj_succ, <- Z.add_1_r, inject_Z_plus. reflexivity. Qed.

Lemma inject_Z_sub a b : inject_Z (a - b) == inject_Z a - inject_Z b.
Proof.
  unfold Z.sub. rewrite inject_Z_plus, inject_Z_opp. reflexivity.
Qed.

Lemma big_combinations_0 {A} (l : list A) (v : list A -> Q) :
  big (combinations l 0) v == v [].
Proof. destruct l; simpl; ring. Qed.

Lemma big_combinations_cons {A} (x : A) l k (v : list A -> Q) :
  big (combinations (x :: l) (S k)) v
  == big (combinations l k) (fun C => v (x :: C))
     + big (combinations l (S k)) v.
Proof. simpl. rewrite big_app, big_map. reflexivity. Qed.

(** Summed over the [k+1]-subsets of [l], the marginal contributions of all
    members count every [k+1]-subset [k+1] times and every [k]-subset
    [|l| - k] times. *)
Lemma marginal_sum (l : list nat) :
  NoDup l ->
  forall k (v : list nat -> Q),
    big (combinations l (S k))
        (fun C => big C (fun i => v C - v (without i C)))
    == inject_Z (Z.of_nat (S k)) * big (combinations l (S k)) v
       - inject_Z (Z.of_nat (length l) - Z.of_nat k)
         * big (combinations l k) v.
Proof.
  induction 1 as [|x l Hx ND IH]; intros k v.
  - destruct k; simpl; ring.
  - rewrite big_combinations_cons.
    assert (E : big (combinations l k)
                  (fun C => big (x :: C)
                              (fun i => v (x :: C) - v (without i (x :: C))))
                == big (combinations l k) (fun C => v (x :: C))
                   - big (combinations l k) v
                   + big (combinations l k)
                       (fun C => big C (fun i =>
                          v (x :: C) - v (x :: without i C)))).
    { rewrite <- big_minus, <- big_plus. apply big_ext. intros C HC.
      assert (HxC : ~ In x C)
        by (intros Hin; apply Hx; eapply combinations_incl; eauto).
      cbn [big]. rewrite (without_head x C HxC).
      apply Qplus_comp; [reflexivity|].
      apply big_ext. intros i Hi.
      rewrite without_cons_ne by (intros ->; contradiction).
      reflexivity. }
    rewrite E. clear E. rewrite (IH k v).
    destruct k as [|k].
    + rewrite (big_combinations_cons x l 0 v).
      rewrite !big_combinations_0.
      cbn [big length].
      rewrite !inject_Z_sub, !inject_nat_S.
      change (inject_Z (Z.of_nat 0)) with 0. ring.
    + rewrite (IH k (fun C => v (x :: C))).
      rewrite (big_combinations_cons x l (S k) v).
      rewrite (big_combinations_cons x l k v).
      cbn [length].
      rewrite !inject_Z_sub, !inject_nat_S. ring.
Qed.

Lemma qfact_S m : qfact (S m) == inject_Z (Z.of_nat (S m)) * qfact m.
Proof.
  unfold qfact. change (fact (S m)) with (S m * fact m)%nat.
  rewrite Nat2Z.inj_mul, inject_Z_mult. reflexivity.
Qed.

Lemma qfact_nonzero m : ~ qfact m == 0.
Proof.
  unfold qfact, Qeq. simpl. pose proof (fact_pos_Z m). lia.
Qed.

Lemma qfact_pos m : 0 < qfact m.
Proof.
  unfold qfact, Qlt. simpl. pose proof (fact_pos_Z m). lia.
Qed.

Lemma wq_qfact m s : wq m s == qfact s * qfact (m - s - 1) / qfact m.
Proof. unfold wq, qfact. rewrite inject_Z_mult. reflexivity. Qed.

Lemma wq_nonneg m s : 0 <= wq m s.
Proof.
  rewrite wq_qfact. unfold Qdiv.
  pose proof (qfact_pos s). pose proof (qfact_pos (m - s - 1)).
  pose proof (Qinv_lt_0_compat _ (qfact_pos m)).
  apply Qmult_le_0_compat; [apply Qmult_le_0_compat|]; lra.
Qed.

Lemma wq_times_succ m k :
  (k < m)%nat -> inject_Z (Z.of_nat (S k)) * wq m k == uq m (S k).
Proof.
  intros H. rewrite wq_qfact. unfold uq. rewrite qfact_S.
  replace (m - k - 1)%nat with (m - S k)%nat by lia.
  field. apply qfact_nonzero.
Qed.

Lemma wq_times_rest m k :
  (k < m)%nat ->
  inject_Z (Z.of_nat m - Z.of_nat k) * wq m k == uq m k.
Proof.
  intros H. rewrite wq_qfact. unfold uq.
  remember (m - k - 1)%nat as j eqn:Ej.
  replace (m - k)%nat with (S j) by lia.
  replace (Z.of_nat m - Z.of_nat k)%Z with (Z.of_nat (S j)) by lia.
  rewrite qfact_S. field. apply qfact_nonzero.
Qed.

Lemma uq_full m : uq m m == 1.
Proof.
  unfold uq. rewrite Nat.sub_diag. change (qfact 0) with 1.
  field. apply qfact_nonzero.
Qed.

Lemma uq_empty m : uq m 0 == 1.
Proof.
  unfold uq. rewrite Nat.sub_0_r. change (qfact 0) with 1.
  field. apply qfact_nonzero.
Qed.

Lemma big_telescope (F : nat -> Q) m :
  big (seq 1 m) (fun k => F k - F (pred k)) == F m - F O.
Proof.
  induction m as [|m IH]; [simpl; ring|].
  rewrite seq_S, big_app, IH. simpl. ring.
Qed.

(** For an index list without repetition, the closed form of one
    coalition size, observed through the sum, telescopes. *)
Lemma size_form_sum self k :
  (k < n self)%nat ->
  big (combinations (seq 0 (n self)) (S k)) (fun C =>
    big C (fun idx => ones idx * term self C idx))
  == uq (n self) (S k)
       * big (combinations (seq 0 (n self)) (S k)) (value self)
     - uq (n self) k * big (combinations (seq 0 (n self)) k) (value self).
Proof.
  intros Hk.
  rewrite <- (wq_times_succ (n self) k Hk), <- (wq_times_rest (n self) k Hk).
  pose proof (marginal_sum (seq 0 (n self)) (seq_NoDup _ _) k (value self))
    as M.
  rewrite length_seq in M.
  transitivity
    (big (combinations (seq 0 (n self)) (S k))
         (fun C => big C (fun i => value self C - value self (without i C)))
     * wq (n self) k).
  - rewrite <- big_scale_r. apply big_ext. intros C HC.
    rewrite <- big_scale_r. apply big_ext. intros idx Hidx.
    unfold term, ones.
    assert (ND : NoDup C)
      by (eapply combinations_NoDup; [apply seq_NoDup | exact HC]).
    pose proof (without_length_NoDup idx C ND Hidx) as L.
    rewrite (combinations_length _ _ _ HC) in L.
    injection L as ->. ring.
  - rewrite M. ring.
Qed.

Lemma members_all self :
  length (vms self) = n self -> members self (seq 0 (n self)) = vms self.
Proof.
  intros <-. unfold members. generalize (vms self) as l.
  intros l. apply nth_ext with (d := no_vm) (d' := no_vm).
  - now rewrite length_map, length_seq.
  - intros i Hi. rewrite length_map, length_seq in Hi.
    rewrite (nth_indep _ no_vm (nth 0 l no_vm))
      by now rewrite length_map, length_seq.
    rewrite (map_nth (fun i => nth i l no_vm)).
    now rewrite seq_nth.
Qed.

Lemma value_all self :
  length (vms self) = n self ->
  value self (seq 0 (n self)) = characteristic_function self (vms self).
Proof. intros H. unfold value. now rewrite members_all. Qed.

Lemma value_nil self :
  0 <= total_resources self -> value self [] == 0.
Proof.
  intros H. unfold value, characteristic_function, py_min, py_sum. simpl.
  apply Q.min_l. exact H.
Qed.

(** Efficiency in closed form: the sum of the Shapley values is the value of
    the full index list minus the value of the empty one. *)
Lemma shapley_form_sum self :
  shapley_form self ones
  == value self (seq 0 (n self)) - value self [].
Proof.
  unfold shapley_form.
  set (F := fun k => uq (n self) k
                     * big (combinations (seq 0 (n self)) k) (value self)).
  transitivity (big (seq 1 (n self)) (fun k => F k - F (pred k))).
  - apply big_ext. intros k Hk. apply in_seq in Hk.
    destruct k as [|k]; [lia|].
    rewrite size_form_sum by lia. reflexivity.
  - rewrite big_telescope. unfold F.
    rewrite uq_full, uq_empty, big_combinations_0.
    pose proof (combinations_all (seq 0 (n self))) as E.
    rewrite length_seq in E. rewrite E. simpl. ring.
Qed.

(** ** The two allocation policies *)

Lemma py_truediv_ok a b : ~ b == 0 -> py_truediv a b = Ok (a / b).
Proof.
  intros H. unfold py_truediv.
  destruct (Qeq_bool b 0) eqn:E; [|reflexivity].
  apply Qeq_bool_eq in E. contradiction.
Qed.

Lemma Qle_bool_false a b : Qle_bool a b = false <-> b < a.
Proof.
  split; intros H.
  - apply Qnot_le_lt. intros Hle. apply Qle_bool_iff in Hle. congruence.
  - destruct (Qle_bool a b) eqn:E; [|reflexivity].
    apply Qle_bool_iff in E. lra.
Qed.

Lemma allocate_loop_ok self sv T (L : list nat) acc :
  ~ T == 0 ->
  (forall i, In i L -> (i < length sv)%nat /\ (i < length (vms self))%nat) ->
  foldM (allocate_step self sv T) L acc
  = Ok (acc ++ map (fun i => py_min (total_resources self * (nth i sv 0 / T))
                                    (dem self i)) L).
Proof.
  intros HT. revert acc. induction L as [|i L IH]; intros acc H.
  - simpl. now rewrite app_nil_r.
  - destruct (H i (or_introl eq_refl)) as [H1 H2].
    cbn [foldM]. unfold allocate_step at 1.
    rewrite (getitem_nth sv i 0 H1). cbn [bind].
    rewrite (py_truediv_ok _ _ HT). cbn [bind].
    rewrite (getitem_nth (vms self) i no_vm H2). cbn [bind].
    rewrite IH by (intros j Hj; apply H; now right).
    rewrite <- app_assoc. reflexivity.
Qed.

(** [allocate_resources] never raises; its result is the all-zero vector
    when the Shapley values sum to at most 0, and otherwise the capped
    shares. *)
Lemma allocate_resources_ok self sv :
  length (vms self) = n self ->
  calculate_shapley_values self = Ok sv ->
  length sv = n self ->
  allocate_resources self
  = Ok (if Qle_bool (py_sum sv) 0 then repeat 0 (n self)
        else map (fun i => py_min (total_resources self
                                   * (nth i sv 0 / py_sum sv))
                                  (dem self i))
                 (seq 0 (n self))).
Proof.
  intros Hn E L. unfold allocate_resources. rewrite E. cbn [bind].
  destruct (Qle_bool (py_sum sv) 0) eqn:B; [reflexivity|].
  apply Qle_bool_false in B.
  rewrite allocate_loop_ok; [reflexivity | lra |].
  intros i Hi. apply in_seq in Hi. lia.
Qed.

Lemma proportional_scaled_ok (R D : Q) (l : list VM) :
  ~ D == 0 ->
  mapM (fun vm => r <- py_truediv (demand vm) D ;; Ok (R * r)) l
  = Ok (map (fun vm => R * (demand vm / D)) l).
Proof.
  intros HD. induction l as [|vm l IH]; [reflexivity|].
  cbn [mapM]. rewrite (py_truediv_ok _ _ HD). cbn [bind].
  rewrite IH. reflexivity.
Qed.

(** [calculate_proportional_allocation] never raises when the pool is
    non-negative. *)
Lemma proportional_ok self :
  0 <= total_resources self ->
  calculate_proportional_allocation self
  = Ok (if Qle_bool (py_sum (map demand (vms self))) (total_resources self)
        then map demand (vms self)
        else map (fun vm => total_resources self
                            * (demand vm / py_sum (map demand (vms self))))
                 (vms self)).
Proof.
  intros HR. unfold calculate_proportional_allocation.
  destruct (Qle_bool (py_sum (map demand (vms self))) (total_resources self))
    eqn:B; [reflexivity|].
  apply Qle_bool_false in B.
  apply proportional_scaled_ok. lra.
Qed.

Lemma nth_map_seq {B} (f : nat -> B) m i d :
  (i < m)%nat -> nth i (map f (seq 0 m)) d = f i.
Proof.
  intros H. rewrite (nth_indep _ d (f O)) by now rewrite length_map, length_seq.
  rewrite (map_nth f). now rewrite seq_nth.
Qed.

Lemma nth_map_demand (l : list VM) i :
  nth i (map demand l) 0 = demand (nth i l no_vm).
Proof. exact (map_nth demand l no_vm i). Qed.

Lemma game_length vms0 R : length (vms (game vms0 R)) = n (game vms0 R).
Proof. reflexivity. Qed.

(** ** Coalition values in terms of index lists *)

Lemma value_eq self C :
  value self C == Qmin (big C (dem self)) (total_resources self).
Proof.
  unfold value, characteristic_function, py_min, members.
  rewrite py_sum_map, big_map. reflexivity.
Qed.

Lemma dem_nonneg self i :
  Forall (fun vm => 0 <= demand vm) (vms self) -> 0 <= dem self i.
Proof.
  intros H. unfold dem.
  destruct (Nat.lt_ge_cases i (length (vms self))) as [Hi|Hi].
  - rewrite Forall_forall in H. apply H. now apply nth_In.
  - rewrite nth_overflow by assumption. simpl. lra.
Qed.

Lemma big_without (f : nat -> Q) idx C :
  NoDup C -> In idx C -> big C f == f idx + big (without idx C) f.
Proof.
  induction 1 as [|x C Hx ND IH]; intros H; [contradiction|].
  destruct (Nat.eq_dec x idx) as [->|Hne].
  - rewrite without_head by assumption. reflexivity.
  - destruct H as [H|H]; [contradiction|].
    rewrite without_cons_ne by assumption. cbn [big].
    rewrite (IH H). ring.
Qed.

Lemma big_without_le (f : nat -> Q) idx C :
  (forall i, 0 <= f i) -> big (without idx C) f <= big C f.
Proof.
  intros Hf. induction C as [|x C IH]; [simpl; lra|].
  unfold without in *. simpl.
  destruct (negb (x =? idx)%nat); cbn [big]; [lra|].
  pose proof (Hf x). lra.
Qed.

Lemma Qmin_le_compat_l a b c : a <= b -> Qmin a c <= Qmin b c.
Proof.
  intros H.
  destruct (Q.min_spec a c) as [[? Ea]|[? Ea]];
    destruct (Q.min_spec b c) as [[? Eb]|[? Eb]]; rewrite Ea, Eb; lra.
Qed.

Lemma Qmin_eq_compat_l a b c : a == b -> Qmin a c == Qmin b c.
Proof.
  intros H.
  destruct (Q.min_spec a c) as [[? Ea]|[? Ea]];
    destruct (Q.min_spec b c) as [[? Eb]|[? Eb]]; rewrite Ea, Eb; lra.
Qed.

(** The game is monotone when demands are non-negative. *)
Lemma term_nonneg self C idx :
  Forall (fun vm => 0 <= demand vm) (vms self) -> 0 <= term self C idx.
Proof.
  intros H. unfold term.
  apply Qmult_le_0_compat; [|apply wq_nonneg].
  rewrite !value_eq.
  pose proof (Qmin_le_compat_l _ _ (total_resources self)
                (big_without_le (dem self) idx C
                   (fun i => dem_nonneg self i H))).
  lra.
Qed.

Lemma shapley_form_nonneg self c :
  Forall (fun vm => 0 <= demand vm) (vms self) ->
  (forall i, 0 <= c i) -> 0 <= shapley_form self c.
Proof.
  intros H Hc. unfold shapley_form.
  apply big_nonneg. intros k _. apply big_nonneg. intros C _.
  apply big_nonneg. intros idx _.
  apply Qmult_le_0_compat; [apply Hc | now apply term_nonneg].
Qed.

(** A consumer that demands nothing never changes a coalition's value. *)
Lemma term_null self C idx :
  NoDup C -> In idx C -> dem self idx == 0 -> term self C idx == 0.
Proof.
  intros ND Hin Hd. unfold term. rewrite !value_eq.
  rewrite (Qmin_eq_compat_l (big C (dem self))
             (big (without idx C) (dem self)) (total_resources self)).
  - ring.
  - rewrite (big_without (dem self) idx C ND Hin), Hd. ring.
Qed.

Lemma shapley_form_null self i :
  dem self i == 0 -> shapley_form self (at_index i) == 0.
Proof.
  intros Hd. unfold shapley_form.
  apply big_zero. intros k _. apply big_zero. intros C HC.
  apply big_zero. intros idx Hidx.
  unfold at_index. destruct (Nat.eqb_spec idx i) as [->|Hne]; [|ring].
  rewrite term_null; [ring | | assumption | assumption].
  eapply combinations_NoDup; [apply seq_NoDup | exact HC].
Qed.

(** ** Symmetry: renaming indices by a transposition *)

Lemma big_perm {A} (l l' : list A) f :
  Permutation l l' -> big l f == big l' f.
Proof.
  induction 1 as [|x l l' _ IH|x y l|l l' l'' _ IH1 _ IH2]; cbn [big].
  - reflexivity.
  - rewrite IH. reflexivity.
  - ring.
  - now rewrite IH1.
Qed.
















(** ** Additive games: no scarcity *)

Lemma big_dem_all self :
  length (vms self) = n self ->
  big (seq 0 (n self)) (dem self) == py_sum (map demand (vms self)).
Proof.
  intros H. rewrite py_sum_map.
  transitivity (big (members self (seq 0 (n self))) demand).
  - unfold members. rewrite big_map. reflexivity.
  - now rewrite members_all.
Qed.

Lemma big_combination_le {A} (f : A -> Q) (l : list A) :
  (forall x, 0 <= f x) ->
  forall k C, In C (combinations l k) -> big C f <= big l f.
Proof.
  intros Hf. induction l as [|x l IH]; intros [|k] C H; simpl in H.
  - destruct H as [<-|[]]. lra.
  - contradiction.
  - destruct H as [<-|[]]. apply big_nonneg. intros; apply Hf.
  - apply in_app_or in H. destruct H as [H|H].
    + apply in_map_iff in H. destruct H as (C' & <- & H).
      cbn [big]. pose proof (IH k C' H). lra.
    + cbn [big]. pose proof (IH (S k) C H). pose proof (Hf x). lra.
Qed.

Lemma term_additive self k C idx :
  Forall (fun vm => 0 <= demand vm) (vms self) ->
  big (seq 0 (n self)) (dem self) <= total_resources self ->
  In C (combinations (seq 0 (n self)) k) -> In idx C ->
  term self C idx == dem self idx * wq (n self) (length (without idx C)).
Proof.
  intros Hnn HD HC Hidx.
  assert (Hf : forall i, 0 <= dem self i)
    by (intros i; now apply dem_nonneg).
  assert (ND : NoDup C)
    by (eapply combinations_NoDup; [apply seq_NoDup | exact HC]).
  pose proof (big_combination_le (dem self) _ Hf k C HC) as HleC.
  pose proof (big_without_le (dem self) idx C Hf) as Hlew.
  unfold term. rewrite !value_eq.
  rewrite (Q.min_l (big C (dem self))) by lra.
  rewrite (Q.min_l (big (without idx C) (dem self))) by lra.
  rewrite (big_without (dem self) idx C ND Hidx). ring.
Qed.

Lemma shapley_form_additive self i :
  Forall (fun vm => 0 <= demand vm) (vms self) ->
  big (seq 0 (n self)) (dem self) <= total_resources self ->
  shapley_form self (at_index i) == dem self i * cnt (n self) i.
Proof.
  intros Hnn HD. unfold shapley_form, cnt.
  rewrite <- big_scale_l. apply big_ext. intros k _.
  rewrite <- big_scale_l. apply big_ext. intros C HC.
  rewrite <- big_scale_l. apply big_ext. intros idx Hidx.
  rewrite (term_additive self k C idx Hnn HD HC Hidx).
  unfold at_index. destruct (Nat.eqb_spec idx i) as [->|_]; ring.
Qed.

Lemma big_at_index i l :
  NoDup l -> In i l -> big l (at_index i) == 1.
Proof.
  intros ND Hin. rewrite (big_without (at_index i) i l ND Hin).
  rewrite big_zero.
  - unfold at_index. rewrite Nat.eqb_refl. ring.
  - intros x Hx. unfold without in Hx. apply filter_In in Hx.
    destruct Hx as [_ Hx]. unfold at_index.
    destruct (x =? i)%nat; [discriminate | reflexivity].
Qed.

Lemma unit_vms_length m i : length (unit_vms m i) = m.
Proof. unfold unit_vms. now rewrite length_map, length_seq. Qed.

Lemma unit_vms_dem m i j :
  (i < m)%nat -> dem (game (unit_vms m i) 1) j = at_index i j.
Proof.
  intros Hi. unfold dem, unit_vms. cbn [vms game].
  destruct (Nat.lt_ge_cases j m) as [Hj|Hj].
  - rewrite nth_map_seq by assumption. reflexivity.
  - rewrite nth_overflow by now rewrite length_map, length_seq.
    unfold at_index. destruct (Nat.eqb_spec j i); [lia | reflexivity].
Qed.

Lemma unit_vms_nonneg m i :
  Forall (fun vm => 0 <= demand vm) (unit_vms m i).
Proof.
  unfold unit_vms. apply Forall_forall. intros vm Hvm.
  apply in_map_iff in Hvm. destruct Hvm as (j & <- & _). simpl.
  destruct (j =? i)%nat; lra.
Qed.

(** The weights of the coalitions containing a given consumer add up to 1:
    efficiency and the null-player property in the game where that consumer
    alone demands one unit of a pool of one unit. *)
Lemma cnt_one m i : (i < m)%nat -> cnt m i == 1.
Proof.
  intros Hi. set (u := game (unit_vms m i) 1).
  assert (Hn : n u = m) by apply unit_vms_length.
  assert (Hd : forall j, dem u j = at_index i j)
    by (intros j; now apply unit_vms_dem).
  assert (Hall : big (seq 0 (n u)) (dem u) == 1).
  { rewrite Hn. rewrite (big_ext _ _ (at_index i))
      by (intros j _; now rewrite Hd).
    apply big_at_index; [apply seq_NoDup | apply in_seq; lia]. }
  assert (Hadd : shapley_form u (at_index i) == dem u i * cnt (n u) i).
  { apply shapley_form_additive; [apply unit_vms_nonneg|].
    rewrite Hall. simpl. lra. }
  assert (Hsum : shapley_form u ones == shapley_form u (at_index i)).
  { unfold shapley_form. apply big_ext. intros k _.
    apply big_ext. intros C HC. apply big_ext. intros idx Hidx.
    unfold ones, at_index at 1.
    destruct (Nat.eqb_spec idx i) as [->|Hne]; [reflexivity|].
    rewrite term_null; [ring | | assumption |].
    - eapply combinations_NoDup; [apply seq_NoDup | exact HC].
    - rewrite Hd. unfold at_index.
      destruct (Nat.eqb_spec idx i); [contradiction | reflexivity]. }
  rewrite shapley_form_sum in Hsum.
  rewrite value_nil, (value_eq u (seq 0 (n u))), Hall in Hsum
    by (simpl; lra).
  rewrite Hadd, Hd, Hn in Hsum. unfold at_index in Hsum at 1.
  rewrite Nat.eqb_refl in Hsum.
  change (total_resources u) with 1 in Hsum.
  rewrite Q.min_l in Hsum by lra. lra.
Qed.

Lemma dem_le_total self i :
  Forall (fun vm => 0 <= demand vm) (vms self) ->
  (i < n self)%nat ->
  dem self i <= big (seq 0 (n self)) (dem self).
Proof.
  intros Hnn Hi.
  rewrite (big_without (dem self) i (seq 0 (n self)))
    by (try apply seq_NoDup; apply in_seq; lia).
  assert (0 <= big (without i (seq 0 (n self))) (dem self))
    by (apply big_nonneg; intros; now apply dem_nonneg).
  lra.
Qed.

(** ** The engine built by [__init__] *)

Lemma Qmin_eq_compat a a' b b' :
  a == a' -> b == b' -> Qmin a b == Qmin a' b'.
Proof.
  intros Ha Hb.
  destruct (Q.min_spec a b) as [[? E]|[? E]];
    destruct (Q.min_spec a' b') as [[? E']|[? E']]; rewrite E, E'; lra.
Qed.

Lemma map_nth_seq_all {A} (l : list A) d :
  map (fun i => nth i l d) (seq 0 (length l)) = l.
Proof.
  apply nth_ext with (d := d) (d' := d).
  - now rewrite length_map, length_seq.
  - intros i Hi. rewrite length_map, length_seq in Hi.
    exact (nth_map_seq (fun j => nth j l d) (length l) i d Hi).
Qed.

Lemma big_seq_nth (l : list Q) :
  big (seq 0 (length l)) (fun i => nth i l 0) == py_sum l.
Proof.
  rewrite py_sum_big.
  transitivity (big (map (fun i => nth i l 0) (seq 0 (length l)))
                    (fun x => x)).
  - rewrite big_map. reflexivity.
  - now rewrite map_nth_seq_all.
Qed.

(** Everything the claims need about one run of the engine: both loops
    return, and the results have the closed forms above. *)
Lemma engine_runs vms0 R :
  exists sv,
    calculate_shapley_values (game vms0 R) = Ok sv /\
    length sv = length vms0 /\
    (forall c, ob c sv == shapley_form (game vms0 R) c) /\
    allocate_resources (game vms0 R)
    = Ok (if Qle_bool (py_sum sv) 0 then repeat 0 (length vms0)
          else map (fun i => py_min (R * (nth i sv 0 / py_sum sv))
                                    (dem (game vms0 R) i))
                   (seq 0 (length vms0))).
Proof.
  destruct (calculate_shapley_values_ok (game vms0 R) (game_length vms0 R))
    as (sv & E & L & O).
  exists sv. repeat split; try assumption.
  exact (allocate_resources_ok (game vms0 R) sv (game_length vms0 R) E L).
Qed.

Lemma shapley_sum_value vms0 R sv :
  0 <= R ->
  (forall c, ob c sv == shapley_form (game vms0 R) c) ->
  py_sum sv == Qmin (py_sum (map demand vms0)) R.
Proof.
  intros HR O. rewrite <- ob_ones, O, shapley_form_sum.
  rewrite (value_nil (game vms0 R)) by exact HR.
  rewrite (value_all (game vms0 R) (game_length vms0 R)).
  unfold characteristic_function, py_min. cbn [vms total_resources game].
  ring.
Qed.

Lemma shapley_entry vms0 R sv i :
  (forall c, ob c sv == shapley_form (game vms0 R) c) ->
  nth i sv 0 == shapley_form (game vms0 R) (at_index i).
Proof. intros O. rewrite <- ob_at_index. apply O. Qed.

Lemma shapley_entry_nonneg vms0 R sv i :
  Forall (fun vm => 0 <= demand vm) vms0 ->
  (forall c, ob c sv == shapley_form (game vms0 R) c) ->
  0 <= nth i sv 0.
Proof.
  intros Hnn O. rewrite (shapley_entry vms0 R sv i O).
  apply shapley_form_nonneg; [exact Hnn|].
  intros j. unfold at_index. destruct (j =? i)%nat; lra.
Qed.

Lemma share_nonneg R x T : 0 <= R -> 0 <= x -> 0 < T -> 0 <= R * (x / T).
Proof.
  intros HR Hx HT. apply Qmult_le_0_compat; [exact HR|].
  apply Qle_shift_div_l; [exact HT | lra].
Qed.


Lemma share_ge_demand R d D : 0 <= d -> 0 < D -> D <= R -> d <= R * (d / D).
Proof.
  intros Hd HD HR.
  assert (Hq : 0 <= d / D) by (apply Qle_shift_div_l; lra).
  assert (E : D * (d / D) == d) by (field; lra).
  rewrite <- E at 1. apply Qmult_le_compat_r; lra.
Qed.

Lemma nth_scaled_demand (R D : Q) (l : list VM) i :
  (i < length l)%nat ->
  nth i (map (fun vm => R * (demand vm / D)) l) 0
  = R * (demand (nth i l no_vm) / D).
Proof.
  intros H.
  rewrite (nth_indep _ 0 ((fun vm => R * (demand vm / D)) no_vm))
    by now rewrite length_map.
  apply (map_nth (fun vm => R * (demand vm / D))).
Qed.

Lemma big_scaled_demand (R D : Q) (l : list VM) :
  ~ D == 0 ->
  py_sum (map (fun vm => R * (demand vm / D)) l)
  == R * (py_sum (map demand l) / D).
Proof.
  intros HD. rewrite !py_sum_map.
  rewrite (big_ext l _ (fun vm => (R / D) * demand vm))
    by (intros vm _; field; exact HD).
  rewrite big_scale_l. field. exact HD.
Qed.

Ltac nonneg_demands :=
  repeat (apply Forall_cons; [simpl; lra|]); apply Forall_nil.

(** ** Properties of the specification *)



(** C2, as the code has it.  [__init__] performs no validation: for every
    consumer list and every pool, negative values included, construction
    succeeds and stores the list, the pool and the length of the list. *)
Theorem init_always_succeeds (vms0 : list VM) (R : Q) :
  exists self,
    init vms0 R = Ok self /\
    vms self = vms0 /\ total_resources self = R /\ n self = length vms0.
Proof.
  exists (game vms0 R). repeat split.
Qed.

(** C2, counterexample to the claim as stated: a consumer with demand -5
    and a pool of -3 are accepted. *)
Lemma init_accepts_negative_input :
  demand (mkVM 1 (-5)) < 0 /\ -3 < 0 /\
  init [mkVM 1 (-5)] (-3) = Ok (mkGame [mkVM 1 (-5)] (-3) 1).
Proof.
  split; [simpl; lra|]. split; [lra | reflexivity].
Qed.

(** C5 (degenerate allocation).  For every registry and pool the Shapley
    computation returns, and when its values sum to at most 0
    [allocate_resources] returns [n] zeros rather than an error. *)
Theorem degenerate_allocation (vms0 : list VM) (R : Q) :
  exists sv,
    calculate_shapley_values (game vms0 R) = Ok sv /\
    (py_sum sv <= 0 ->
     allocate_resources (game vms0 R) = Ok (repeat 0 (length vms0))).
Proof.
  destruct (engine_runs vms0 R) as (sv & E & L & O & A).
  exists sv. split; [exact E|]. intros H.
  apply Qle_bool_iff in H. rewrite H in A. exact A.
Qed.

Lemma degenerate_allocation_zero_pool :
  allocate_resources (game [mkVM 1 10; mkVM 2 20] 0) = Ok [0; 0].
Proof.
  destruct (degenerate_allocation [mkVM 1 10; mkVM 2 20] 0)
    as (sv & E & H).
  vm_compute in E. injection E as <-.
  apply H. vm_compute. discriminate.
Defined.

(** C6 (empty registry).  With no consumers and a non-negative pool both
    allocation methods return the empty sequence; the guards of the
    degenerate branches hold, so neither division is reached. *)
Theorem empty_registry (R : Q) :
  0 <= R ->
  allocate_resources (game [] R) = Ok [] /\
  calculate_proportional_allocation (game [] R) = Ok [] /\
  calculate_shapley_values (game [] R) = Ok [] /\
  Qle_bool (py_sum []) 0 = true /\
  Qle_bool (py_sum (map demand [])) R = true.
Proof.
  intros HR.
  assert (G : Qle_bool (py_sum (map demand [])) R = true)
    by (apply Qle_bool_iff; exact HR).
  repeat split; try reflexivity; try exact G.
  unfold calculate_proportional_allocation. cbn [vms total_resources game].
  rewrite G. reflexivity.
Qed.

Lemma empty_registry_main_pool :
  0 <= 45 /\
  allocate_resources (game [] 45) = Ok [] /\
  calculate_proportional_allocation (game [] 45) = Ok [].
Proof.
  assert (H : 0 <= 45) by lra.
  destruct (empty_registry 45 H) as (A & P & _).
  split; [exact H|]. split; [exact A | exact P].
Defined.

(** C7 (proportional total).  For a registry with non-negative demands and
    a non-negative pool, [calculate_proportional_allocation] returns a
    sequence whose sum is [min D total_resources], [D] being the sum of all
    demands. *)
Theorem proportional_sum (vms0 : list VM) (R : Q) :
  Forall (fun vm => 0 <= demand vm) vms0 -> 0 <= R ->
  exists p,
    calculate_proportional_allocation (game vms0 R) = Ok p /\
    length p = length vms0 /\
    py_sum p == Qmin (py_sum (map demand vms0)) R.
Proof.
  intros _ HR.
  pose proof (proportional_ok (game vms0 R) HR) as P.
  cbn [vms total_resources game] in P.
  destruct (Qle_bool (py_sum (map demand vms0)) R) eqn:B.
  - eexists. split; [exact P|]. split; [apply length_map|].
    apply Qle_bool_iff in B. rewrite Q.min_l by exact B. reflexivity.
  - eexists. split; [exact P|]. split; [apply length_map|].
    apply Qle_bool_false in B.
    rewrite big_scaled_demand by lra.
    rewrite Q.min_r by lra. field. lra.
Qed.

Lemma proportional_sum_main :
  Forall (fun vm => 0 <= demand vm) main_vms /\ 0 <= 45 /\
  exists p,
    calculate_proportional_allocation main_game = Ok p /\
    length p = 3%nat /\
    py_sum p == Qmin (py_sum (map demand main_vms)) 45.
Proof.
  assert (H1 : Forall (fun vm => 0 <= demand vm) main_vms)
    by (unfold main_vms; nonneg_demands).
  assert (H2 : 0 <= 45) by lra.
  split; [exact H1|]. split; [exact H2|].
  exact (proportional_sum main_vms 45 H1 H2).
Defined.









(** C9 (null player).  For a registry with non-negative demands and a
    non-negative pool, a consumer whose demand is 0 receives the Shapley
    value 0 from [calculate_shapley_values] and the allocation 0 from
    [allocate_resources]. *)
Theorem zero_demand_zero_share (vms0 : list VM) (R : Q) (i : nat) :
  Forall (fun vm => 0 <= demand vm) vms0 -> 0 <= R ->
  (i < length vms0)%nat ->
  demand (nth i vms0 no_vm) == 0 ->
  exists sv a,
    calculate_shapley_values (game vms0 R) = Ok sv /\
    allocate_resources (game vms0 R) = Ok a /\
    nth i sv 0 == 0 /\
    nth i a 0 == 0.
Proof.
  intros _ _ Hi Hd.
  destruct (engine_runs vms0 R) as (sv & E & L & O & A).
  assert (Hsv : nth i sv 0 == 0).
  { rewrite (shapley_entry vms0 R sv i O).
    apply shapley_form_null. exact Hd. }
  exists sv. eexists. split; [exact E|]. split; [exact A|].
  split; [exact Hsv|].
  destruct (Qle_bool (py_sum sv) 0) eqn:B.
  - rewrite nth_repeat. reflexivity.
  - apply Qle_bool_false in B. rewrite nth_map_seq by exact Hi.
    unfold py_min, dem. cbn [vms game].
    rewrite (Qmin_eq_compat _ 0 _ 0); [reflexivity | | exact Hd].
    rewrite Hsv. field. lra.
Qed.

Lemma zero_demand_zero_share_idle :
  Forall (fun vm => 0 <= demand vm) idle_vms /\ 0 <= 15 /\
  (0 < length idle_vms)%nat /\
  demand (nth 0 idle_vms no_vm) == 0 /\
  exists sv a,
    calculate_shapley_values (game idle_vms 15) = Ok sv /\
    allocate_resources (game idle_vms 15) = Ok a /\
    nth 0 sv 0 == 0 /\
    nth 0 a 0 == 0.
Proof.
  assert (H1 : Forall (fun vm => 0 <= demand vm) idle_vms)
    by (unfold idle_vms; nonneg_demands).
  assert (H2 : 0 <= 15) by lra.
  assert (H3 : (0 < length idle_vms)%nat) by (simpl; lia).
  assert (H4 : demand (nth 0 idle_vms no_vm) == 0) by reflexivity.
  repeat (split; [assumption|]).
  exact (zero_demand_zero_share idle_vms 15 0 H1 H2 H3 H4).
Defined.

(** ** Further properties of the engine *)

Lemma Qmin_step_le S d R : 0 <= d -> Qmin (d + S) R - Qmin S R <= d.
Proof.
  intros Hd.
  destruct (Q.min_spec (d + S) R) as [[? Ea]|[? Ea]];
    destruct (Q.min_spec S R) as [[? Eb]|[? Eb]]; rewrite Ea, Eb; lra.
Qed.

Lemma term_le_demand self C idx :
  NoDup C -> In idx C -> 0 <= dem self idx ->
  term self C idx
  <= dem self idx * wq (n self) (length (without idx C)).
Proof.
  intros ND Hin Hd. unfold term. rewrite !value_eq.
  apply Qmult_le_compat_r; [|apply wq_nonneg].
  rewrite (Qmin_eq_compat_l (big C (dem self))
             (dem self idx + big (without idx C) (dem self))
             (total_resources self))
    by (apply big_without; assumption).
  apply Qmin_step_le. exact Hd.
Qed.

Lemma weighted_demand_form self i :
  big (seq 1 (n self)) (fun k =>
    big (combinations (seq 0 (n self)) k) (fun C =>
      big C (fun idx =>
        at_index i idx
        * (dem self idx * wq (n self) (length (without idx C))))))
  == dem self i * cnt (n self) i.
Proof.
  unfold cnt.
  rewrite <- big_scale_l. apply big_ext. intros k _.
  rewrite <- big_scale_l. apply big_ext. intros C _.
  rewrite <- big_scale_l. apply big_ext. intros idx _.
  unfold at_index. destruct (Nat.eqb_spec idx i) as [->|_]; ring.
Qed.

Lemma shapley_form_le_demand self i :
  Forall (fun vm => 0 <= demand vm) (vms self) ->
  (i < n self)%nat ->
  shapley_form self (at_index i) <= dem self i.
Proof.
  intros Hnn Hi.
  apply Qle_trans with (dem self i * cnt (n self) i).
  - rewrite <- weighted_demand_form. unfold shapley_form.
    apply big_le. intros k _. apply big_le. intros C HC.
    apply big_le. intros idx Hidx.
    assert (ND : NoDup C)
      by (eapply combinations_NoDup; [apply seq_NoDup | exact HC]).
    pose proof (term_le_demand self C idx ND Hidx
                  (dem_nonneg self idx Hnn)) as T.
    unfold at_index. destruct (idx =? i)%nat; lra.
  - rewrite (cnt_one (n self) i Hi). lra.
Qed.

Lemma nth_le_py_sum (l : list Q) i :
  (forall j, 0 <= nth j l 0) -> nth i l 0 <= py_sum l.
Proof.
  intros H. destruct (Nat.lt_ge_cases i (length l)) as [Hi|Hi].
  - rewrite <- big_seq_nth.
    rewrite (big_without (fun j => nth j l 0) i (seq 0 (length l)))
      by (try apply seq_NoDup; apply in_seq; lia).
    assert (0 <= big (without i (seq 0 (length l))) (fun j => nth j l 0))
      by (apply big_nonneg; intros; apply H).
    lra.
  - rewrite nth_overflow by exact Hi.
    rewrite <- big_seq_nth. apply big_nonneg. intros; apply H.
Qed.

Lemma characteristic_function_eq self coalition :
  characteristic_function self coalition
  == Qmin (big coalition demand) (total_resources self).
Proof.
  unfold characteristic_function, py_min.
  apply Qmin_eq_compat_l. apply py_sum_map.
Qed.

Lemma mapM_length {A B} (f : A -> result B) (l : list A) ys :
  mapM f l = Ok ys -> length ys = length l.
Proof.
  revert ys. induction l as [|x l IH]; intros ys H; simpl in H.
  - injection H as <-. reflexivity.
  - destruct (f x) as [y|e]; [|discriminate]. simpl in H.
    destruct (mapM f l) as [ys'|e]; [|discriminate]. simpl in H.
    injection H as <-. simpl. f_equal. now apply IH.
Qed.



(** X2.  A coalition that gains a member of non-negative demand, inserted
    at any position while the other members keep their order, is worth at
    least as much as before. *)
Theorem characteristic_function_insert_monotone (self : CloudResourceGame)
  (before after : list VM) (vm : VM) :
  0 <= demand vm ->
  characteristic_function self (before ++ after)
  <= characteristic_function self (before ++ vm :: after).
Proof.
  intros Hd. rewrite !characteristic_function_eq.
  apply Qmin_le_compat_l. rewrite !big_app. cbn [big]. lra.
Qed.

Lemma characteristic_function_insert_monotone_main :
  0 <= demand (mkVM 2 20) /\
  characteristic_function main_game ([mkVM 1 10] ++ [mkVM 3 30])
  <= characteristic_function main_game
       ([mkVM 1 10] ++ mkVM 2 20 :: [mkVM 3 30]).
Proof.
  assert (H : 0 <= demand (mkVM 2 20)) by (simpl; lra).
  split; [exact H|].
  exact (characteristic_function_insert_monotone main_game
           [mkVM 1 10] [mkVM 3 30] (mkVM 2 20) H).
Defined.

(** X3.  Over exact arithmetic (Python ints or Fractions, where [sum] is
    exact) the value of a coalition is the same for every ordering of its
    members.  On doubles the left-to-right sum rounds and the value can
    depend on the order. *)
Theorem characteristic_function_order (self : CloudResourceGame)
  (coalition coalition' : list VM) :
  Permutation coalition coalition' ->
  characteristic_function self coalition
  == characteristic_function self coalition'.
Proof.
  intros HP. rewrite !characteristic_function_eq.
  apply Qmin_eq_compat_l. now apply big_perm.
Qed.

Lemma characteristic_function_order_main :
  Permutation main_vms (rev main_vms) /\
  characteristic_function main_game main_vms
  == characteristic_function main_game (rev main_vms).
Proof.
  assert (H : Permutation main_vms (rev main_vms))
    by apply Permutation_rev.
  split; [exact H|].
  exact (characteristic_function_order main_game _ _ H).
Defined.




(** X6.  With non-negative demands, every Shapley value returned by
    [calculate_shapley_values] is at least 0, whatever the pool. *)
Theorem shapley_value_nonneg (vms0 : list VM) (R : Q) (i : nat) :
  Forall (fun vm => 0 <= demand vm) vms0 ->
  exists sv,
    calculate_shapley_values (game vms0 R) = Ok sv /\
    length sv = length vms0 /\
    0 <= nth i sv 0.
Proof.
  intros Hnn. destruct (engine_runs vms0 R) as (sv & E & L & O & _).
  exists sv. split; [exact E|]. split; [exact L|].
  now apply (shapley_entry_nonneg vms0 R).
Qed.

Lemma shapley_value_nonneg_main :
  Forall (fun vm => 0 <= demand vm) main_vms /\
  exists sv,
    calculate_shapley_values main_game = Ok sv /\
    length sv = 3%nat /\
    0 <= nth 0 sv 0.
Proof.
  assert (H1 : Forall (fun vm => 0 <= demand vm) main_vms)
    by (unfold main_vms; nonneg_demands).
  split; [exact H1|].
  exact (shapley_value_nonneg main_vms 45 0 H1).
Defined.

Lemma shapley_entry_additive vms0 R sv i :
  Forall (fun vm => 0 <= demand vm) vms0 ->
  py_sum (map demand vms0) <= R ->
  (i < length vms0)%nat ->
  (forall c, ob c sv == shapley_form (game vms0 R) c) ->
  nth i sv 0 == demand (nth i vms0 no_vm).
Proof.
  intros Hnn HD Hi O.
  pose proof (big_dem_all (game vms0 R) (game_length vms0 R)) as Hall.
  cbn [vms n game] in Hall.
  rewrite (shapley_entry vms0 R sv i O).
  rewrite shapley_form_additive;
    [| exact Hnn | cbn [n total_resources game]; rewrite Hall; exact HD].
  cbn [n game]. rewrite (cnt_one (length vms0) i Hi).
  unfold dem. cbn [vms game]. ring.
Qed.

Lemma share_of_whole R x T : T == R -> 0 < R -> R * (x / T) == x.
Proof. intros E HR. rewrite E. field. lra. Qed.


(** The allocation, entry by entry, is the Shapley value. *)
Lemma allocation_entry vms0 R sv i :
  Forall (fun vm => 0 <= demand vm) vms0 -> 0 <= R ->
  (i < length vms0)%nat ->
  (forall c, ob c sv == shapley_form (game vms0 R) c) ->
  nth i (if Qle_bool (py_sum sv) 0 then repeat 0 (length vms0)
         else map (fun i => py_min (R * (nth i sv 0 / py_sum sv))
                                   (dem (game vms0 R) i))
                  (seq 0 (length vms0))) 0
  == nth i sv 0.
Proof.
  intros Hnn HR Hi O.
  pose proof (shapley_sum_value vms0 R sv HR O) as Hsum.
  assert (Hge : forall j, 0 <= nth j sv 0)
    by (intros j; now apply (shapley_entry_nonneg vms0 R)).
  assert (Hle : nth i sv 0 <= demand (nth i vms0 no_vm)).
  { rewrite (shapley_entry vms0 R sv i O).
    exact (shapley_form_le_demand (game vms0 R) i Hnn Hi). }
  destruct (Qle_bool (py_sum sv) 0) eqn:B.
  - apply Qle_bool_iff in B. rewrite nth_repeat.
    pose proof (nth_le_py_sum sv i Hge). pose proof (Hge i). lra.
  - apply Qle_bool_false in B. rewrite nth_map_seq by exact Hi.
    unfold py_min, dem. cbn [vms game].
    destruct (Qlt_le_dec R (py_sum (map demand vms0))) as [Hsc|Hno].
    + assert (ET : py_sum sv == R)
        by (rewrite Hsum; apply Q.min_r; lra).
      rewrite (Qmin_eq_compat _ (nth i sv 0) _ (demand (nth i vms0 no_vm)));
        [apply Q.min_l; exact Hle | | reflexivity].
      apply share_of_whole; [exact ET | lra].
    + pose proof (shapley_entry_additive vms0 R sv i Hnn Hno Hi O) as Hent.
      assert (ET : py_sum sv == py_sum (map demand vms0))
        by (rewrite Hsum; apply Q.min_l; exact Hno).
      rewrite Hent at 2. apply Q.min_r.
      apply Qle_trans
        with (R * (demand (nth i vms0 no_vm) / py_sum sv)).
      * pose proof (Hge i).
        apply share_ge_demand; [lra | exact B | lra].
      * apply Qle_lteq. right. rewrite Hent. reflexivity.
Qed.





(** X9.  With non-negative demands and an empty pool, [allocate_resources]
    returns [n] zeros and every value returned by
    [calculate_proportional_allocation] is 0. *)
Theorem zero_pool_zero_allocation (vms0 : list VM) :
  Forall (fun vm => 0 <= demand vm) vms0 ->
  exists p,
    allocate_resources (game vms0 0) = Ok (repeat 0 (length vms0)) /\
    calculate_proportional_allocation (game vms0 0) = Ok p /\
    length p = length vms0 /\
    forall i, nth i p 0 == 0.
Proof.
  intros Hnn. destruct (engine_runs vms0 0) as (sv & E & L & O & A).
  assert (H0 : 0 <= 0) by lra.
  pose proof (shapley_sum_value vms0 0 sv H0 O) as Hsum.
  assert (HD : 0 <= py_sum (map demand vms0)).
  { rewrite py_sum_map. apply big_nonneg. intros vm Hvm.
    rewrite Forall_forall in Hnn. now apply Hnn. }
  rewrite Q.min_r in Hsum by exact HD.
  assert (B : Qle_bool (py_sum sv) 0 = true)
    by (apply Qle_bool_iff; lra).
  rewrite B in A.
  pose proof (proportional_ok (game vms0 0) H0) as P.
  cbn [vms total_resources game] in P.
  eexists. split; [exact A|]. split; [exact P|]. split.
  - destruct (Qle_bool (py_sum (map demand vms0)) 0); apply length_map.
  - intros i. destruct (Nat.lt_ge_cases i (length vms0)) as [Hi|Hi].
    + destruct (Qle_bool (py_sum (map demand vms0)) 0) eqn:BD.
      * apply Qle_bool_iff in BD. rewrite nth_map_demand.
        pose proof (dem_le_total (game vms0 0) i Hnn Hi) as Hle.
        cbn [n game] in Hle.
        rewrite (big_dem_all (game vms0 0) (game_length vms0 0)) in Hle.
        unfold dem in Hle. cbn [vms game] in Hle.
        pose proof (dem_nonneg (game vms0 0) i Hnn) as Hge.
        unfold dem in Hge. cbn [vms game] in Hge. lra.
      * apply Qle_bool_false in BD.
        rewrite nth_scaled_demand by exact Hi. field. lra.
    + rewrite nth_overflow; [reflexivity|].
      destruct (Qle_bool (py_sum (map demand vms0)) 0);
        rewrite length_map; exact Hi.
Qed.

Lemma zero_pool_zero_allocation_main :
  Forall (fun vm => 0 <= demand vm) main_vms /\
  exists p,
    allocate_resources (game main_vms 0) = Ok [0; 0; 0] /\
    calculate_proportional_allocation (game main_vms 0) = Ok p /\
    length p = 3%nat /\
    forall i, nth i p 0 == 0.
Proof.
  assert (H1 : Forall (fun vm => 0 <= demand vm) main_vms)
    by (unfold main_vms; nonneg_demands).
  split; [exact H1|].
  exact (zero_pool_zero_allocation main_vms H1).
Defined.

(** ** Larger demand, larger share *)
















(** ** Identifiers are display-only *)

Lemma foldM_ext {S A} (f f' : S -> A -> result S) (l : list A) (s : S) :
  (forall s x, f s x = f' s x) -> foldM f l s = foldM f' l s.
Proof.
  intros H. revert s. induction l as [|x l IH]; intros s; simpl.
  - reflexivity.
  - rewrite H. destruct (f' s x); simpl; [apply IH | reflexivity].
Qed.

Lemma mapM_map {A B C} (f : A -> B) (g : B -> result C) (l : list A) :
  mapM (fun x => g (f x)) l = mapM g (map f l).
Proof.
  induction l as [|x l IH]; simpl; [reflexivity | now rewrite IH].
Qed.

Lemma getitem_demand (l l' : list VM) i :
  map demand l = map demand l' ->
  match getitem l i, getitem l' i with
  | Ok x, Ok x' => demand x = demand x'
  | Err e, Err e' => e = e'
  | _, _ => False
  end.
Proof.
  intros H. unfold getitem.
  assert (E : option_map demand (nth_error l i)
              = option_map demand (nth_error l' i))
    by now rewrite <- !nth_error_map, H.
  destruct (nth_error l i), (nth_error l' i); simpl in E;
    try discriminate; [now injection E | reflexivity].
Qed.

Lemma mapM_getitem_demand (l l' : list VM) (L : list nat) :
  map demand l = map demand l' ->
  match mapM (getitem l) L, mapM (getitem l') L with
  | Ok c, Ok c' => map demand c = map demand c'
  | Err e, Err e' => e = e'
  | _, _ => False
  end.
Proof.
  intros H. induction L as [|i L IH]; simpl; [reflexivity|].
  pose proof (getitem_demand l l' i H) as G.
  destruct (getitem l i) as [x|e], (getitem l' i) as [x'|e'];
    simpl; try contradiction; [|exact G].
  destruct (mapM (getitem l) L) as [c|e], (mapM (getitem l') L) as [c'|e'];
    simpl; try contradiction; [|exact IH].
  now rewrite G, IH.
Qed.

Lemma characteristic_function_demands self self' c c' :
  total_resources self = total_resources self' ->
  map demand c = map demand c' ->
  characteristic_function self c = characteristic_function self' c'.
Proof. intros HR Hc. unfold characteristic_function. now rewrite HR, Hc. Qed.

Lemma member_step_demands self self' C v sv idx :
  map demand (vms self) = map demand (vms self') ->
  total_resources self = total_resources self' -> n self = n self' ->
  member_step self C v sv idx = member_step self' C v sv idx.
Proof.
  intros Hv HR Hn. unfold member_step.
  pose proof (mapM_getitem_demand (vms self) (vms self')
                (filter (fun i => negb (i =? idx)%nat) C) Hv) as M.
  destruct (mapM (getitem (vms self)) _) as [c|e],
           (mapM (getitem (vms self')) _) as [c'|e'];
    simpl; try contradiction; [|now rewrite M].
  rewrite (characteristic_function_demands self self' c c' HR M).
  assert (EL : length c = length c')
    by (rewrite <- (length_map demand c), M; apply length_map).
  unfold weight. now rewrite EL, Hn.
Qed.

Lemma coalition_step_demands self self' sv C :
  map demand (vms self) = map demand (vms self') ->
  total_resources self = total_resources self' -> n self = n self' ->
  coalition_step self sv C = coalition_step self' sv C.
Proof.
  intros Hv HR Hn. unfold coalition_step.
  pose proof (mapM_getitem_demand (vms self) (vms self') C Hv) as M.
  destruct (mapM (getitem (vms self)) C) as [c|e],
           (mapM (getitem (vms self')) C) as [c'|e'];
    simpl; try contradiction; [|now rewrite M].
  rewrite (characteristic_function_demands self self' c c' HR M).
  apply foldM_ext. intros s x. now apply member_step_demands.
Qed.

Lemma calculate_shapley_values_demands self self' :
  map demand (vms self) = map demand (vms self') ->
  total_resources self = total_resources self' -> n self = n self' ->
  calculate_shapley_values self = calculate_shapley_values self'.
Proof.
  intros Hv HR Hn. unfold calculate_shapley_values. rewrite Hn.
  apply foldM_ext. intros s k. unfold size_step. rewrite Hn.
  apply foldM_ext. intros s' C. now apply coalition_step_demands.
Qed.

Lemma allocate_step_demands self self' sv T acc i :
  map demand (vms self) = map demand (vms self') ->
  total_resources self = total_resources self' ->
  allocate_step self sv T acc i = allocate_step self' sv T acc i.
Proof.
  intros Hv HR. unfold allocate_step.
  destruct (getitem sv i) as [s|e]; [|reflexivity]. simpl.
  destruct (py_truediv s T) as [r|e]; [|reflexivity]. simpl.
  pose proof (getitem_demand (vms self) (vms self') i Hv) as G.
  destruct (getitem (vms self) i) as [x|e], (getitem (vms self') i) as [x'|e'];
    simpl; try contradiction; [|now rewrite G].
  now rewrite HR, G.
Qed.

(** X12.  Consumer identifiers never influence a result: two registries
    with the same sequence of demands get identical results from
    [calculate_shapley_values], [allocate_resources] and
    [calculate_proportional_allocation], errors included. *)
Theorem ids_do_not_matter (vms0 vms1 : list VM) (R : Q) :
  map demand vms0 = map demand vms1 ->
  calculate_shapley_values (game vms0 R)
  = calculate_shapley_values (game vms1 R) /\
  allocate_resources (game vms0 R) = allocate_resources (game vms1 R) /\
  calculate_proportional_allocation (game vms0 R)
  = calculate_proportional_allocation (game vms1 R).
Proof.
  intros H.
  assert (Hn : n (game vms0 R) = n (game vms1 R)).
  { cbn [n game]. rewrite <- (length_map demand vms0), H.
    apply length_map. }
  assert (HS : calculate_shapley_values (game vms0 R)
               = calculate_shapley_values (game vms1 R))
    by (apply calculate_shapley_values_demands; [exact H | reflexivity | exact Hn]).
  split; [exact HS|]. split.
  - unfold allocate_resources. rewrite HS, Hn.
    destruct (calculate_shapley_values (game vms1 R)) as [sv|e];
      [|reflexivity].
    simpl. destruct (Qle_bool (py_sum sv) 0); [reflexivity|].
    apply foldM_ext. intros s i.
    apply allocate_step_demands; [exact H | reflexivity].
  - unfold calculate_proportional_allocation.
    cbn [vms total_resources game]. rewrite H.
    destruct (Qle_bool (py_sum (map demand vms1)) R); [reflexivity|].
    rewrite (mapM_map demand
               (fun d => r <- py_truediv d (py_sum (map demand vms1)) ;;
                         Ok (R * r)) vms0).
    rewrite (mapM_map demand
               (fun d => r <- py_truediv d (py_sum (map demand vms1)) ;;
                         Ok (R * r)) vms1).
    now rewrite H.
Qed.

Lemma ids_do_not_matter_main :
  map demand main_vms = map demand [mkVM 7 10; mkVM 8 20; mkVM 9 30] /\
  calculate_shapley_values main_game
  = calculate_shapley_values (game [mkVM 7 10; mkVM 8 20; mkVM 9 30] 45) /\
  allocate_resources main_game
  = allocate_resources (game [mkVM 7 10; mkVM 8 20; mkVM 9 30] 45) /\
  calculate_proportional_allocation main_game
  = calculate_proportional_allocation
      (game [mkVM 7 10; mkVM 8 20; mkVM 9 30] 45).
Proof.
  assert (H : map demand main_vms
              = map demand [mkVM 7 10; mkVM 8 20; mkVM 9 30])
    by reflexivity.
  split; [exact H|].
  exact (ids_do_not_matter main_vms _ 45 H).
Defined.

(** ** Change of unit *)










(** ** The satisfaction report *)

Lemma mapM_ok {A B} (f : A -> result B) (g : A -> B) (l : list A) :
  (forall x, In x l -> f x = Ok (g x)) -> mapM f l = Ok (map g l).
Proof.
  induction l as [|x l IH]; intros H; simpl; [reflexivity|].
  rewrite (H x) by now left. simpl.
  rewrite IH by (intros y Hy; apply H; now right). reflexivity.
Qed.

Lemma py_truediv_zero a b : b == 0 -> py_truediv a b = Err ZeroDivisionError.
Proof.
  intros H. unfold py_truediv. apply Qeq_bool_iff in H. now rewrite H.
Qed.

Lemma py_truediv_cases a b :
  py_truediv a b = Err ZeroDivisionError \/ py_truediv a b = Ok (a / b).
Proof.
  unfold py_truediv. destruct (Qeq_bool b 0); [now left | now right].
Qed.

(** A comprehension over [zip(alloc, ds)] that divides by the second
    component raises as soon as one of the zipped divisors is zero. *)
Lemma ratios_raise {D} (den : D -> Q) (alloc : list Q) (ds : list D) d0 i :
  (i < length alloc)%nat -> (i < length ds)%nat ->
  den (nth i ds d0) == 0 ->
  mapM (fun ad => r <- py_truediv (fst ad) (den (snd ad)) ;; Ok (py_min r 1))
       (combine alloc ds)
  = Err ZeroDivisionError.
Proof.
  revert ds i. induction alloc as [|a alloc IH]; intros ds i Ha Hd Hz;
    [simpl in Ha; lia|].
  destruct ds as [|d ds]; [simpl in Hd; lia|].
  cbn [combine mapM fst snd].
  destruct i as [|i].
  - simpl in Hz. rewrite (py_truediv_zero a (den d) Hz). reflexivity.
  - destruct (py_truediv_cases a (den d)) as [E|E]; rewrite E;
      [reflexivity|].
    cbn [bind]. rewrite (IH ds i); [reflexivity | simpl in Ha; lia
                                   | simpl in Hd; lia | exact Hz].
Qed.

Lemma ratios_ok {D} (den : D -> Q) (alloc : list Q) (ds : list D) :
  Forall (fun d => ~ den d == 0) ds ->
  mapM (fun ad => r <- py_truediv (fst ad) (den (snd ad)) ;; Ok (py_min r 1))
       (combine alloc ds)
  = Ok (map (fun ad => py_min (fst ad / den (snd ad)) 1) (combine alloc ds)).
Proof.
  intros H. apply mapM_ok. intros [a d] Hin. cbn [fst snd].
  apply in_combine_r in Hin. rewrite Forall_forall in H.
  rewrite (py_truediv_ok a (den d) (H d Hin)). reflexivity.
Qed.

Lemma combine_seq {D} (alloc : list Q) (ds : list D) d0 :
  length alloc = length ds ->
  combine alloc ds
  = map (fun i => (nth i alloc 0, nth i ds d0)) (seq 0 (length ds)).
Proof.
  intros HL. apply nth_ext with (d := (0, d0)) (d' := (0, d0)).
  - rewrite length_combine, length_map, length_seq, HL. apply Nat.min_id.
  - intros i Hi. rewrite length_combine, HL, Nat.min_id in Hi.
    rewrite (combine_nth alloc ds i 0 d0 HL).
    now rewrite (nth_map_seq (fun j => (nth j alloc 0, nth j ds d0))).
Qed.

Lemma big_ones {A} (l : list A) :
  big l (fun _ => 1) == inject_Z (Z.of_nat (length l)).
Proof.
  induction l as [|x l IH]; [reflexivity|].
  cbn [big length]. rewrite IH, inject_nat_S. ring.
Qed.

Lemma length_pos_Q {A} (l : list A) :
  l <> [] -> 0 < inject_Z (Z.of_nat (length l)).
Proof.
  intros H. destruct l as [|x l]; [contradiction|].
  unfold Qlt. simpl. lia.
Qed.

Lemma positive_nonzero (l : list VM) :
  Forall (fun vm => 0 < demand vm) l ->
  Forall (fun vm => ~ demand vm == 0) l.
Proof. apply Forall_impl. intros vm H. lra. Qed.

(** The metric of [main] on an allocation as long as the registry, in
    index form. *)
Lemma average_satisfaction_ok (alloc : list Q) (vms0 : list VM) :
  length alloc = length vms0 -> vms0 <> [] ->
  Forall (fun vm => 0 < demand vm) vms0 ->
  exists s,
    average_satisfaction alloc vms0 = Ok s /\
    s == big (seq 0 (length vms0))
             (fun i => Qmin (nth i alloc 0 / demand (nth i vms0 no_vm)) 1)
         / inject_Z (Z.of_nat (length vms0)).
Proof.
  intros HL Hne Hpos. unfold average_satisfaction.
  rewrite (ratios_ok demand alloc vms0 (positive_nonzero vms0 Hpos)).
  cbn [bind].
  pose proof (length_pos_Q vms0 Hne) as HN.
  rewrite py_truediv_ok by lra.
  eexists. split; [reflexivity|].
  rewrite py_sum_map, (combine_seq alloc vms0 no_vm HL), big_map.
  reflexivity.
Qed.

Lemma nth_positive (l : list VM) i :
  Forall (fun vm => 0 < demand vm) l -> (i < length l)%nat ->
  0 < demand (nth i l no_vm).
Proof.
  intros H Hi. rewrite Forall_forall in H. apply H. now apply nth_In.
Qed.

Lemma positive_nonneg (l : list VM) :
  Forall (fun vm => 0 < demand vm) l ->
  Forall (fun vm => 0 <= demand vm) l.
Proof. apply Forall_impl. intros vm H. lra. Qed.

Lemma average_satisfaction_unit (alloc : list Q) (vms0 : list VM) :
  length alloc = length vms0 -> vms0 <> [] ->
  Forall (fun vm => 0 < demand vm) vms0 ->
  (forall i, (i < length vms0)%nat -> 0 <= nth i alloc 0) ->
  exists s, average_satisfaction alloc vms0 = Ok s /\ 0 <= s /\ s <= 1.
Proof.
  intros HL Hne Hpos Hge.
  destruct (average_satisfaction_ok alloc vms0 HL Hne Hpos) as (s & E & Es).
  pose proof (length_pos_Q vms0 Hne) as HN.
  exists s. split; [exact E|]. rewrite Es. split.
  - apply Qle_shift_div_l; [exact HN|]. rewrite Qmult_0_l.
    apply big_nonneg. intros i Hi. apply in_seq in Hi.
    apply Q.min_glb; [|lra].
    apply Qle_shift_div_l; [apply nth_positive; [exact Hpos | lia]|].
    rewrite Qmult_0_l. apply Hge. lia.
  - apply Qle_shift_div_r; [exact HN|]. rewrite Qmult_1_l.
    apply Qle_trans with (big (seq 0 (length vms0)) (fun _ => 1)).
    + apply big_le. intros i _. apply Q.le_min_r.
    + rewrite big_ones, length_seq. lra.
Qed.

Lemma allocation_lengths vms0 R :
  0 <= R ->
  exists sv a p,
    (forall c, ob c sv == shapley_form (game vms0 R) c) /\
    allocate_resources (game vms0 R) = Ok a /\
    calculate_proportional_allocation (game vms0 R) = Ok p /\
    length a = length vms0 /\ length p = length vms0 /\
    a = (if Qle_bool (py_sum sv) 0 then repeat 0 (length vms0)
         else map (fun i => py_min (R * (nth i sv 0 / py_sum sv))
                                   (dem (game vms0 R) i))
                  (seq 0 (length vms0))) /\
    p = (if Qle_bool (py_sum (map demand vms0)) R then map demand vms0
         else map (fun vm => R * (demand vm / py_sum (map demand vms0)))
                  vms0).
Proof.
  intros HR. destruct (engine_runs vms0 R) as (sv & E & L & O & A).
  pose proof (proportional_ok (game vms0 R) HR) as P.
  cbn [vms total_resources game] in P.
  exists sv. do 2 eexists. split; [exact O|]. split; [exact A|].
  split; [exact P|]. split; [|split; [|split; reflexivity]].
  - destruct (Qle_bool (py_sum sv) 0);
      [apply repeat_length | now rewrite length_map, length_seq].
  - destruct (Qle_bool (py_sum (map demand vms0)) R); apply length_map.
Qed.

(** X14.  The satisfaction comprehension of [visualize_results] raises
    [ZeroDivisionError] whenever a consumer that has an allocation has
    demand 0. *)
Theorem satisfaction_ratios_zero_demand (alloc demands : list Q) (i : nat) :
  (i < length alloc)%nat -> (i < length demands)%nat ->
  nth i demands 0 == 0 ->
  satisfaction_ratios alloc demands = Err ZeroDivisionError.
Proof.
  intros Ha Hd Hz.
  exact (ratios_raise (fun d => d) alloc demands 0 i Ha Hd Hz).
Qed.

Lemma satisfaction_ratios_zero_demand_idle :
  (0 < length [0%Q; 15%Q])%nat /\ (0 < length (map demand idle_vms))%nat /\
  nth 0 (map demand idle_vms) 0 == 0 /\
  satisfaction_ratios [0; 15] (map demand idle_vms)
  = Err ZeroDivisionError.
Proof.
  assert (H1 : (0 < length [0%Q; 15%Q])%nat) by (simpl; lia).
  assert (H2 : (0 < length (map demand idle_vms))%nat) by (simpl; lia).
  assert (H3 : nth 0 (map demand idle_vms) 0 == 0) by reflexivity.
  repeat (split; [assumption|]).
  exact (satisfaction_ratios_zero_demand _ _ 0 H1 H2 H3).
Defined.

(** X15.  When no demand is 0, the satisfaction comprehension returns one
    ratio per zipped pair, that is as many as the shorter of the two lists,
    and every ratio is capped at 1. *)
Theorem satisfaction_ratios_capped (alloc demands : list Q) :
  Forall (fun d => ~ d == 0) demands ->
  exists rs,
    satisfaction_ratios alloc demands = Ok rs /\
    length rs = Nat.min (length alloc) (length demands) /\
    Forall (fun r => r <= 1) rs.
Proof.
  intros H. unfold satisfaction_ratios.
  rewrite (ratios_ok (fun d => d) alloc demands H).
  eexists. split; [reflexivity|]. split.
  - now rewrite length_map, length_combine.
  - apply Forall_forall. intros r Hr. apply in_map_iff in Hr.
    destruct Hr as (ad & <- & _). apply Q.le_min_r.
Qed.

Lemma satisfaction_ratios_capped_main :
  Forall (fun d => ~ d == 0) (map demand main_vms) /\
  exists rs,
    satisfaction_ratios [40; 5] (map demand main_vms) = Ok rs /\
    length rs = 2%nat /\
    Forall (fun r => r <= 1) rs.
Proof.
  assert (H : Forall (fun d => ~ d == 0) (map demand main_vms))
    by (repeat (apply Forall_cons; [simpl; lra|]); apply Forall_nil).
  split; [exact H|].
  exact (satisfaction_ratios_capped [40; 5] (map demand main_vms) H).
Defined.

(** X16.  The average-satisfaction expression of [main] raises
    [ZeroDivisionError] when the registry is empty, and also when a
    consumer that has an allocation has demand 0. *)
Theorem average_satisfaction_raises (alloc : list Q) (vms0 : list VM) :
  vms0 = [] \/
  (exists i, (i < length alloc)%nat /\ (i < length vms0)%nat /\
             demand (nth i vms0 no_vm) == 0) ->
  average_satisfaction alloc vms0 = Err ZeroDivisionError.
Proof.
  intros [->|(i & Ha & Hd & Hz)]; unfold average_satisfaction.
  - rewrite combine_nil. reflexivity.
  - rewrite (ratios_raise demand alloc vms0 no_vm i Ha Hd Hz).
    reflexivity.
Qed.

Lemma average_satisfaction_raises_idle :
  average_satisfaction [0; 15] idle_vms = Err ZeroDivisionError /\
  average_satisfaction [] [] = Err ZeroDivisionError.
Proof.
  split.
  - apply (average_satisfaction_raises [0; 15] idle_vms). right.
    exists 0%nat. split; [simpl; lia|]. split; [simpl; lia | reflexivity].
  - apply (average_satisfaction_raises [] []). now left.
Defined.

(** X17.  For a non-empty registry with strictly positive demands and a
    non-negative pool, the average satisfaction of both allocation methods
    is computed without error and lies between 0 and 1. *)
Theorem average_satisfaction_bounds (vms0 : list VM) (R : Q) :
  vms0 <> [] -> Forall (fun vm => 0 < demand vm) vms0 -> 0 <= R ->
  exists a p s t,
    allocate_resources (game vms0 R) = Ok a /\
    calculate_proportional_allocation (game vms0 R) = Ok p /\
    average_satisfaction a vms0 = Ok s /\
    average_satisfaction p vms0 = Ok t /\
    (0 <= s /\ s <= 1) /\ (0 <= t /\ t <= 1).
Proof.
  intros Hne Hpos HR.
  pose proof (positive_nonneg vms0 Hpos) as Hnn.
  destruct (allocation_lengths vms0 R HR)
    as (sv & a & p & O & A & P & La & Lp & Ea & Ep).
  destruct (average_satisfaction_unit a vms0 La Hne Hpos) as (s & Es & Hs).
  { intros i Hi. subst a.
    rewrite (allocation_entry vms0 R sv i Hnn HR Hi O).
    now apply (shapley_entry_nonneg vms0 R). }
  destruct (average_satisfaction_unit p vms0 Lp Hne Hpos) as (t & Et & Ht).
  { intros i Hi. subst p.
    pose proof (dem_nonneg (game vms0 R) i Hnn) as Hd.
    unfold dem in Hd. cbn [vms game] in Hd.
    destruct (Qle_bool (py_sum (map demand vms0)) R) eqn:B.
    - rewrite nth_map_demand. exact Hd.
    - apply Qle_bool_false in B. rewrite nth_scaled_demand by exact Hi.
      apply share_nonneg; [exact HR | exact Hd | lra]. }
  exists a, p, s, t. repeat split; try assumption; tauto.
Qed.

Lemma average_satisfaction_bounds_main :
  main_vms <> [] /\ Forall (fun vm => 0 < demand vm) main_vms /\ 0 <= 45 /\
  exists a p s t,
    allocate_resources main_game = Ok a /\
    calculate_proportional_allocation main_game = Ok p /\
    average_satisfaction a main_vms = Ok s /\
    average_satisfaction p main_vms = Ok t /\
    (0 <= s /\ s <= 1) /\ (0 <= t /\ t <= 1).
Proof.
  assert (H1 : main_vms <> []) by discriminate.
  assert (H2 : Forall (fun vm => 0 < demand vm) main_vms)
    by (repeat (apply Forall_cons; [simpl; lra|]); apply Forall_nil).
  assert (H3 : 0 <= 45) by lra.
  repeat (split; [assumption|]).
  exact (average_satisfaction_bounds main_vms 45 H1 H2 H3).
Defined.




(** X19.  With non-negative demands and a pool that is zero or negative,
    [allocate_resources] returns [n] zeros. *)
Theorem exhausted_pool_zero_allocation (vms0 : list VM) (R : Q) :
  Forall (fun vm => 0 <= demand vm) vms0 -> R <= 0 ->
  allocate_resources (game vms0 R) = Ok (repeat 0 (length vms0)).
Proof.
  intros _ HR. destruct (engine_runs vms0 R) as (sv & E & L & O & A).
  assert (Hsum : py_sum sv <= 0).
  { rewrite <- ob_ones, O, shapley_form_sum, !value_eq.
    cbn [big total_resources game n].
    rewrite (Q.min_r 0 R) by exact HR.
    pose proof (Q.le_min_r (big (seq 0 (length vms0)) (dem (game vms0 R))) R).
    lra. }
  apply Qle_bool_iff in Hsum. rewrite Hsum in A. exact A.
Qed.

Lemma exhausted_pool_zero_allocation_main :
  Forall (fun vm => 0 <= demand vm) main_vms /\ -5 <= 0 /\
  allocate_resources (game main_vms (-5)) = Ok [0; 0; 0].
Proof.
  assert (H1 : Forall (fun vm => 0 <= demand vm) main_vms)
    by (unfold main_vms; nonneg_demands).
  assert (H2 : -5 <= 0) by lra.
  split; [exact H1|]. split; [exact H2|].
  exact (exhausted_pool_zero_allocation main_vms (-5) H1 H2).
Defined.

(** ** The claims on doubles

    Evaluations of the engine of module [F64] at inputs where rounding
    separates the real code from the exact model. *)




